(** * Crawler-SmartUI: the breadth-first crawler of [app.js]

    A shallow embedding of [crawlWebsite] (app.js, lines 55-104) and the
    properties of it that the specification states, followed by the
    helpers around it: [slugify], [getPageTitle], [saveUrlsWithTitles] and
    [waitForResultsFile].

    The crawler talks to three libraries that are not part of the
    repository: axios (HTTP), cheerio (HTML) and Node's WHATWG [URL].
    They are the fields of the class [Platform]; every definition and
    theorem is parametric in it.  The order in which the requests of
    one chunk settle is not fixed by the program, so it is a field of
    [Platform] as well. *)

From Stdlib Require Import Ascii String ZArith Lia Bool Arith PeanoNat List Permutation.
Import ListNotations.

Local Open Scope Z_scope.
Local Open Scope list_scope.

(** ** JavaScript containers *)

(** A JavaScript [Set] of strings iterates in insertion order (the route
    handler of line 320 relies on it), so it is a list in which [add]
    appends an element that is not yet there. *)
Module JsSet.

Abbreviation t := (list string).

Definition has (s : t) (x : string) : bool := existsb (String.eqb x) s.

Definition add (s : t) (x : string) : t := if has s x then s else s ++ [x].

Definition size (s : t) : Z := Z.of_nat (length s).

(** [links.forEach(link => s.add(link))] *)
Definition add_all (s : t) (links : list string) : t := fold_left add links s.

End JsSet.

(** [Array.prototype.slice(start, end)] on integer arguments: a negative
    index counts from the end, both are clamped to the array, and an empty
    range gives the empty array. *)
Definition slice {A : Type} (l : list A) (start stop : Z) : list A :=
  let len := Z.of_nat (length l) in
  let k := if start <? 0 then Z.max (len + start) 0 else Z.min start len in
  let final := if stop <? 0 then Z.max (len + stop) 0 else Z.min stop len in
  firstn (Z.to_nat (final - k)) (skipn (Z.to_nat k) l).

(** ** The libraries and the network *)

Class Platform : Type := {
  (** [response.data] *)
  body : Type;
  (** [axios.get(url, { timeout: 10000 })] for the request issued as number
      [k] of the crawl: [Some] when the promise fulfils, [None] when it
      rejects (network error, timeout, status outside 2xx). *)
  axios_get : nat -> string -> option body;
  (** the [href] attributes of [$('a[href]')] in document order *)
  anchor_hrefs : body -> list string;
  (** [new URL(href, base).href]; [None] when the constructor throws *)
  URL_href : string -> string -> option string;
  (** [new URL(s).hostname]; [None] when the constructor throws *)
  URL_hostname : string -> option string;
  (** Completion order: when the [k]-th response handler of the crawl is
      about to run and [m] requests of the chunk are still pending, the
      one at position [completion k mod m] settles. *)
  completion : nat -> nat
}.

(** ** The crawler *)

Section Crawler.

Context {P : Platform}.

(** Lines 72-78: every anchor is resolved against the page's own URL; an
    href the URL constructor rejects is dropped. *)
Fixpoint links (url : string) (hrefs : list string) : list string :=
  match hrefs with
  | [] => []
  | href :: rest =>
      match URL_href href url with
      | Some l => l :: links url rest
      | None => links url rest
      end
  end.

(** Line 81.  Both constructors can throw: [None]. *)
Definition sameDomain (startUrl link : string) : option bool :=
  match URL_hostname link with
  | None => None
  | Some hl =>
      match URL_hostname startUrl with
      | None => None
      | Some hs => Some (String.eqb hl hs)
      end
  end.

(** Lines 80-83: [links.filter(...)].  An exception in the callback
    leaves [filter]; nothing has been added to [visited] by then. *)
Fixpoint newLinks (startUrl : string) (visited : JsSet.t) (ls : list string)
  : option (list string) :=
  match ls with
  | [] => Some []
  | link :: rest =>
      match sameDomain startUrl link with
      | None => None
      | Some same =>
          match newLinks startUrl visited rest with
          | None => None
          | Some kept =>
              Some (if same && negb (JsSet.has visited link)
                    then link :: kept else kept)
          end
      end
  end.

(** Lines 69-86, the [then] callback: the new value of [visited] and the
    value the promise fulfils with, or [None] when it throws. *)
Definition on_response (startUrl : string) (visited : JsSet.t) (url : string)
    (data : body) : option (JsSet.t * list string) :=
  match newLinks startUrl visited (links url (anchor_hrefs data)) with
  | None => None
  | Some nl => Some (JsSet.add_all visited nl, nl)
  end.

(** Lines 68-90, one promise of the chunk at the moment it settles:
    [axios.get(url).then(...).catch(err => [])] for request number [k]. *)
Definition crawl_url (startUrl : string) (k : nat) (visited : JsSet.t)
    (url : string) : JsSet.t * list string :=
  match axios_get k url with
  | None => (visited, [])
  | Some data =>
      match on_response startUrl visited url data with
      | None => (visited, [])
      | Some r => r
      end
  end.

(** The promises of one chunk settle one at a time, in the order
    [completion] gives; each callback runs to its end before the next.
    [pending] pairs each URL with its request number, [settled] collects
    the value of each promise. *)
Fixpoint settle (startUrl : string) (n : nat) (step : nat)
    (pending : list (nat * string)) (visited : JsSet.t)
    (settled : list (nat * list string))
  : JsSet.t * list (nat * list string) :=
  match n with
  | O => (visited, settled)
  | S n' =>
      let j := Nat.modulo (completion step) (length pending) in
      match nth_error pending j with
      | None => (visited, settled)
      | Some (k, url) =>
          let '(visited', found) := crawl_url startUrl k visited url in
          settle startUrl n' (S step)
                 (firstn j pending ++ skipn (S j) pending)
                 visited' ((k, found) :: settled)
      end
  end.

(** The value request [k] settled with. *)
Fixpoint value_of (k : nat) (settled : list (nat * list string)) : list string :=
  match settled with
  | [] => []
  | (k', found) :: rest => if Nat.eqb k k' then found else value_of k rest
  end.

(** State of the loop of lines 65-97. [req] counts the requests issued
    so far; [fetched] lists the URLs requested at this level. *)
Record level_state : Type := {
  visited : JsSet.t;
  nextLevel : list string;
  req : nat;
  fetched : list string
}.

(** Lines 66-95: one chunk.  [Promise.all] gives the values in the order
    of the chunk, whatever order they settled in. *)
Definition run_chunk (startUrl : string) (chunk : list string) (st : level_state)
  : level_state :=
  let promises := combine (seq (req st) (length chunk)) chunk in
  let '(visited', settled) :=
    settle startUrl (length promises) (req st) promises (visited st) [] in
  let results := map (fun p => value_of (fst p) settled) promises in
  {| visited := visited';
     nextLevel := nextLevel st ++ concat results;
     req := (req st + length chunk)%nat;
     fetched := fetched st ++ chunk |}.

(** One turn of the loop of line 65 at index [i]: [inr] when the loop is
    left (the condition fails, or the [break] of line 96), [inl] with
    the next index otherwise. *)
Definition level_step (startUrl : string) (concurrencyLimit maxPages : Z)
    (currentLevel : list string) (i : Z) (st : level_state)
  : (Z * level_state) + level_state :=
  if i <? Z.of_nat (length currentLevel) then
    let chunk := slice currentLevel i (i + concurrencyLimit) in
    let st' := run_chunk startUrl chunk st in
    if JsSet.size (visited st') >=? maxPages then inr st'
    else inl (i + concurrencyLimit, st')
  else inr st.

(** Lines 65-97.  [None]: the loop has not finished within [fuel] turns. *)
Fixpoint level_loop (startUrl : string) (concurrencyLimit maxPages : Z)
    (fuel : nat) (currentLevel : list string) (i : Z) (st : level_state)
  : option level_state :=
  match fuel with
  | O => None
  | S fuel' =>
      match level_step startUrl concurrencyLimit maxPages currentLevel i st with
      | inr st' => Some st'
      | inl (i', st') =>
          level_loop startUrl concurrencyLimit maxPages fuel' currentLevel i' st'
      end
  end.

(** What [crawlWebsite] returns, and what it did to get there: the URLs
    requested, level by level, in the order the requests were issued. *)
Record crawl_result : Type := {
  result : JsSet.t;
  requests : list (list string)
}.

(** Lines 61-101.  [levels] is the number of turns the condition
    [depth < maxDepth] still allows. *)
Fixpoint depth_loop (startUrl : string) (concurrencyLimit maxPages : Z)
    (fuel : nat) (levels : nat) (currentLevel : list string)
    (seen : JsSet.t) (issued : nat) (log : list (list string))
  : option crawl_result :=
  match levels with
  | O => Some {| result := seen; requests := log |}
  | S levels' =>
      match level_loop startUrl concurrencyLimit maxPages fuel currentLevel 0
              {| visited := seen; nextLevel := []; req := issued; fetched := [] |}
      with
      | None => None
      | Some st =>
          let log' := log ++ [fetched st] in
          if (JsSet.size (visited st) >=? maxPages)
             || (Nat.eqb (length (nextLevel st)) 0)
          then Some {| result := visited st; requests := log' |}
          else depth_loop startUrl concurrencyLimit maxPages fuel levels'
                          (nextLevel st) (visited st) (req st) log'
      end
  end.

(** Lines 55-104.  The loop of line 61 runs [depth] from 0 while
    [depth < maxDepth]: at most [Z.to_nat maxDepth] turns.  [fuel] bounds
    the turns of each inner loop; [None] means some inner loop did not
    finish within it. *)
Definition crawlWebsite (fuel : nat) (startUrl : string)
    (maxDepth concurrencyLimit maxPages : Z) : option crawl_result :=
  depth_loop startUrl concurrencyLimit maxPages fuel (Z.to_nat maxDepth)
             [startUrl] (JsSet.add [] startUrl) 0 [].

End Crawler.

(** ** A small web to run the crawler on *)

Module Fixture.

Local Open Scope string_scope.

(** The part of WHATWG URL parsing the pages below need: absolute
    [http]/[https] URLs with a plain lower-case host, and paths that
    start with a slash.  Everything else is rejected. *)
Definition after_scheme (s : string) : option (string * string) :=
  if String.prefix "http://" s
  then Some ("http://", String.substring 7 (String.length s - 7) s)
  else if String.prefix "https://" s
  then Some ("https://", String.substring 8 (String.length s - 8) s)
  else None.

Definition split_host (rest : string) : string * string :=
  match String.index 0 "/" rest with
  | Some k => (String.substring 0 k rest,
               String.substring k (String.length rest - k) rest)
  | None => (rest, "/")
  end.

Definition parse (s : string) : option (string * string * string) :=
  match after_scheme s with
  | None => None
  | Some (scheme, rest) =>
      let '(host, path) := split_host rest in
      if String.eqb host "" then None else Some (scheme, host, path)
  end.

Definition hostname (s : string) : option string :=
  match parse s with
  | Some (_, host, _) => Some host
  | None => None
  end.

Definition href (h base : string) : option string :=
  match parse base with
  | None => None
  | Some (scheme, host, _) =>
      match parse h with
      | Some (scheme', host', path') => Some (scheme' ++ host' ++ path')
      | None => if String.prefix "/" h then Some (scheme ++ host ++ h) else None
      end
  end.

(** A site maps a URL to the hrefs of the page served there; a URL that
    is not listed fails to load. *)
Fixpoint page (site : list (string * list string)) (url : string)
  : option (list string) :=
  match site with
  | [] => None
  | (u, hrefs) :: rest => if String.eqb u url then Some hrefs else page rest url
  end.

Definition web (site : list (string * list string)) (order : nat -> nat)
  : Platform :=
  {| body := list string;
     axios_get := fun _ url => page site url;
     anchor_hrefs := fun b => b;
     URL_href := href;
     URL_hostname := hostname;
     completion := order |}.

(** Responses arrive in the order the requests were issued. *)
Definition in_order : nat -> nat := fun _ => 0%nat.

(** The response of the request issued last arrives first. *)
Definition last_first : nat -> nat := fun _ => 1%nat.

(** The pages of the spec's scenario. *)
Definition home : string := "http://a.com".
Definition about : string := "http://a.com/about".

(** The home page links to [/about] and to another host. *)
Definition two_links : list (string * list string) :=
  [ (home, ["/about"; "http://b.com/x"]) ].

Definition page_p : string := "http://a.com/p".
Definition page_q : string := "http://a.com/q".
Definition page_r : string := "http://a.com/r".
Definition page_z : string := "http://a.com/z".
Definition secure_s : string := "https://a.com/s".
Definition elsewhere : string := "http://b.com/x".
Definition subdomain : string := "http://www.a.com/".
Definition unparsable : string := "not a url".

(** The home page names the same page twice. *)
Definition repeated_link : list (string * list string) :=
  [ (home, ["/r"; "/r"]) ].

(** The same, and the page named twice has a link of its own. *)
Definition repeated_then_more : list (string * list string) :=
  [ (home, ["/r"; "/r"]);
    (page_r, ["/z"]) ].

(** Two pages of one chunk name the same page, one of them twice. *)
Definition shared_link : list (string * list string) :=
  [ (home, ["/p"; "/q"]);
    (page_p, ["/r"; "/r"]);
    (page_q, ["/r"]) ].

(** A link to the seed's host under another scheme, and links to other
    hosts. *)
Definition other_hosts : list (string * list string) :=
  [ (home, [secure_s; elsewhere; subdomain]) ].

(** No page loads. *)
Definition offline : list (string * list string) := [].

End Fixture.


(** ** Definitions used to state the properties *)

Section Statements.

Context {P : Platform}.

(** The links of a list that [visited] does not hold yet. *)
Definition fresh (visited : JsSet.t) (ls : list string) : list string :=
  filter (fun l => negb (JsSet.has visited l)) ls.

(** The links the page answering request [k] for [url] offers to the
    crawl: its same-host links, in document order and with repetitions;
    none when the request fails or the handler throws. *)
Definition candidates (startUrl : string) (k : nat) (url : string) : list string :=
  snd (crawl_url startUrl k [] url).

(** One promise settles: the step of [settle], for a given request. *)
Definition settle_one (startUrl : string)
    (acc : JsSet.t * list (nat * list string)) (p : nat * string)
  : JsSet.t * list (nat * list string) :=
  let '(visited', found) := crawl_url startUrl (fst p) (fst acc) (snd p) in
  (visited', (fst p, found) :: snd acc).

(** The host of [x] is the host of the seed. *)
Definition same_host (startUrl x : string) : Prop :=
  exists h, URL_hostname x = Some h /\ URL_hostname startUrl = Some h.

(** No URL requested at one level is requested at a later one. *)
Definition never_again (log : list (list string)) : Prop :=
  ForallOrdPairs (fun earlier later => forall x, In x earlier -> ~ In x later) log.

(** [visited] is the seed and the candidates of the pages requested so
    far; [requested] lists them in the order of their request numbers. *)
Definition accounted (startUrl : string) (requested : list string) (issued : nat)
    (seen : JsSet.t) : Prop :=
  issued = length requested /\
  forall x, In x seen <->
    x = startUrl \/
    exists k u, nth_error requested k = Some u /\ In x (candidates startUrl k u).

(** The promises of a chunk: each URL with the number of its request. *)
Definition promises (issued : nat) (chunk : list string) : list (nat * string) :=
  combine (seq issued (length chunk)) chunk.

(** The order in which [settle] takes the pending requests, as
    [completion] dictates it: the requests of the chunk in the order their
    handlers run. *)
Fixpoint completion_order (n step : nat) (pending : list (nat * string))
  : list (nat * string) :=
  match n with
  | O => []
  | S n' =>
      let j := Nat.modulo (completion step) (length pending) in
      match nth_error pending j with
      | None => []
      | Some p =>
          p :: completion_order n' (S step) (firstn j pending ++ skipn (S j) pending)
      end
  end.

(** The order in which the handlers of [chunk] run when [issued] requests
    have been made before it. *)
Definition arrival (issued : nat) (chunk : list string) : list (nat * string) :=
  completion_order (length (promises issued chunk)) issued (promises issued chunk).

(** [visited] when the handlers of [earlier] have run on [seen]. *)
Definition visited_after (startUrl : string) (earlier : list (nat * string))
    (seen : JsSet.t) : JsSet.t :=
  fst (fold_left (settle_one startUrl) earlier (seen, [])).

End Statements.

(** The platform [P] with another completion order. *)
Definition with_order (P : Platform) (order : nat -> nat) : Platform :=
  {| body := @body P;
     axios_get := @axios_get P;
     anchor_hrefs := @anchor_hrefs P;
     URL_href := @URL_href P;
     URL_hostname := @URL_hostname P;
     completion := order |}.

(** The platform [P] in which a request that fails in [P] is answered by a
    page without anchors. *)
Definition failures_as_empty_pages (P : Platform) : Platform :=
  {| body := option (@body P);
     axios_get := fun k url => Some (@axios_get P k url);
     anchor_hrefs := fun d => match d with
                              | Some data => @anchor_hrefs P data
                              | None => []
                              end;
     URL_href := @URL_href P;
     URL_hostname := @URL_hostname P;
     completion := @completion P |}.

(** * The rest of [app.js]: naming pages and waiting for results *)

(** ** [slugify] (lines 24-32)

    A character is a code unit below 256, one [ascii] for each; the text
    is the list of its characters. *)

Module Slug.

Definition code (c : ascii) : nat := nat_of_ascii c.

Definition between (lo hi n : nat) : bool := (lo <=? n)%nat && (n <=? hi)%nat.

(** What [\s] matches and [trim] strips: tab, line feed, vertical tab,
    form feed, carriage return, space and the no-break space. *)
Definition isSpace (c : ascii) : bool :=
  between 9 13 (code c) || (code c =? 32)%nat || (code c =? 160)%nat.

(** The letters [toLowerCase] changes: A-Z, and the capital letters of
    Latin-1 (U+00C0 to U+00DE, the multiplication sign apart). *)
Definition isUpper (c : ascii) : bool :=
  between 65 90 (code c) || (between 192 222 (code c) && negb (code c =? 215)%nat).

(** What [\w] matches: digits, letters A-Z and a-z, and the underscore. *)
Definition isWord (c : ascii) : bool :=
  between 48 57 (code c) || between 65 90 (code c) || (code c =? 95)%nat
  || between 97 122 (code c).

Definition isDash (c : ascii) : bool := (code c =? 45)%nat.

Definition dash : ascii := ascii_of_nat 45.

Definition toLowerCase (text : list ascii) : list ascii :=
  map (fun c => if isUpper c then ascii_of_nat (code c + 32) else c) text.

Fixpoint trimStart (text : list ascii) : list ascii :=
  match text with
  | [] => []
  | c :: rest => if isSpace c then trimStart rest else text
  end.

Definition trim (text : list ascii) : list ascii :=
  rev (trimStart (rev (trimStart text))).

(** [.replace(/\s+/g, '-')]: every maximal run of spaces becomes one dash.
    [inRun] says that the character before was a space of the same run. *)
Fixpoint replaceSpaces (inRun : bool) (text : list ascii) : list ascii :=
  match text with
  | [] => []
  | c :: rest =>
      if isSpace c
      then if inRun then replaceSpaces true rest else dash :: replaceSpaces true rest
      else c :: replaceSpaces false rest
  end.

(** [.replace(/[^\w\-]+/g, '')] *)
Definition removeNonWord (text : list ascii) : list ascii :=
  filter (fun c => isWord c || isDash c) text.

(** [.replace(/\-\-+/g, '-')]: every run of two dashes or more becomes one
    dash; a dash on its own stays.  [afterDash] says that the character
    before was a dash. *)
Fixpoint replaceDashes (afterDash : bool) (text : list ascii) : list ascii :=
  match text with
  | [] => []
  | c :: rest =>
      if isDash c
      then if afterDash then replaceDashes true rest else c :: replaceDashes true rest
      else c :: replaceDashes false rest
  end.

Definition slugify_chars (text : list ascii) : list ascii :=
  replaceDashes false (removeNonWord (replaceSpaces false (trim (toLowerCase text)))).

(** The characters a slug is made of: a-z, 0-9, underscore and dash. *)
Definition isSlugChar (c : ascii) : bool :=
  between 48 57 (code c) || (code c =? 95)%nat || between 97 122 (code c)
  || isDash c.

(** A character is lowered: it is what [toLowerCase] makes of some
    character. *)
Definition lowered (c : ascii) : Prop :=
  exists c0, c = if isUpper c0 then ascii_of_nat (code c0 + 32) else c0.

(** [.replace(/\//g, ' ')] of line 114 *)
Definition slashesToSpaces (text : list ascii) : list ascii :=
  map (fun c => if (code c =? 47)%nat then ascii_of_nat 32 else c) text.

(** The characters of a path segment that needs no cleaning: a-z, 0-9 and
    the underscore. *)
Definition isNameChar (c : ascii) : bool :=
  between 48 57 (code c) || (code c =? 95)%nat || between 97 122 (code c).

Definition slash : ascii := ascii_of_nat 47.

Definition space : ascii := ascii_of_nat 32.

(** The path [/s1/s2/.../sn] of the segments [s1 ... sn]. *)
Definition pathOf (segments : list (list ascii)) : list ascii :=
  concat (map (cons slash) segments).

(** Segments that are not empty and made of name characters. *)
Definition clean (segments : list (list ascii)) : Prop :=
  forall s, In s segments -> s <> [] /\ forall c, In c s -> isNameChar c = true.

(** The segments joined by [sep]: [s1-s2-...-sn]. *)
Definition joinWith (sep : ascii) (segments : list (list ascii)) : list ascii :=
  match segments with
  | [] => []
  | s :: rest => s ++ concat (map (cons sep) rest)
  end.

End Slug.

Definition slugify (text : string) : string :=
  string_of_list_ascii (Slug.slugify_chars (list_ascii_of_string text)).

(** [String.prototype.trim] on a string *)
Definition trim (text : string) : string :=
  string_of_list_ascii (Slug.trim (list_ascii_of_string text)).

(** ** [getPageTitle] and [saveUrlsWithTitles] (lines 35-45, 107-124) *)

Class TitlePlatform : Type := {
  (** [response.data] of a title request *)
  document : Type;
  (** [axios.get(url, { timeout: 10000 })] for the [k]-th URL of the list;
      [None] when the promise rejects *)
  title_get : nat -> string -> option document;
  (** [cheerio.load(data)] and [$('title').text()]; [None] when it throws *)
  title_text : document -> option string;
  (** [new URL(url).pathname]; [None] when the constructor throws *)
  URL_pathname : string -> option string
}.

(** An element of the array written to [urls.json]. *)
Record url_entry : Type := {
  entry_name : string;
  entry_url : string;
  entry_waitForTimeout : option Z
}.

Section Titles.

Context {T : TitlePlatform}.

(** Lines 35-45. *)
Definition getPageTitle (k : nat) (url : string) : string :=
  match title_get k url with
  | None => "Error"%string
  | Some data =>
      match title_text data with
      | None => "Error"%string
      | Some text =>
          let title := trim text in
          if String.eqb title "" then "No Title"%string else title
      end
  end.

(** Lines 113-114: the name taken from the path. *)
Definition nameFromPath (pathname : string) : string :=
  if String.eqb pathname "/" then "home-page"%string
  else string_of_list_ascii
         (Slug.slugify_chars (Slug.slashesToSpaces (list_ascii_of_string pathname))).

(** Lines 110-115: the name of one URL; [None] when [new URL(url)] throws. *)
Definition nameOf (k : nat) (url : string) : option string :=
  let name := slugify (getPageTitle k url) in
  if String.eqb name "" || String.eqb name "error" || String.eqb name "no-title"
  then match URL_pathname url with
       | None => None
       | Some pathname => Some (nameFromPath pathname)
       end
  else Some name.

(** Lines 108-121: the loop over [urls], from the [k]-th URL on; [None]
    when an exception leaves it. *)
Fixpoint titlesLoop (k : nat) (urls : list string) (baseUrl : string)
    (results : list url_entry) : option (list url_entry) :=
  match urls with
  | [] => Some results
  | url :: rest =>
      match nameOf k url with
      | None => None
      | Some name =>
          titlesLoop (S k) rest baseUrl
            (results ++ [ {| entry_name := name;
                             entry_url := url;
                             entry_waitForTimeout :=
                               if String.eqb url baseUrl then Some 1000 else None |} ])
      end
  end.

(** Lines 107-121 and the argument of line 122: the array the function
    has built when it reaches the write, [None] when an exception leaves
    the loop before.  The write itself ([fs.writeFileSync], which can throw
    too) and the log of line 123 are not modelled: [Some] means that the
    write is reached, not that it succeeds. *)
Definition saveUrlsWithTitles (urls : list string) (baseUrl : string)
  : option (list url_entry) :=
  titlesLoop 0 urls baseUrl [].

End Titles.

(** ** [waitForResultsFile] (lines 146-165) *)

Class ResultsFile : Type := {
  (** [fs.existsSync('results.json')] at the [k]-th check *)
  existsSync : nat -> bool;
  (** [fs.readFile('results.json', 'utf-8', ...)] at the [k]-th check:
      the error or the content *)
  readFile : nat -> string + string
}.

(** What the callback is called with. *)
Inductive callback_call : Type :=
| ReadFailed (err : string)      (* line 153 *)
| ResultsRead (data : string)    (* line 155 *)
| TimedOut.                      (* line 161 *)

Section Polling.

Context {F : ResultsFile}.

(** Lines 148-163, [checkFile] when [attempts] checks have been made.  It
    returns the number of checks made and the call of the callback;
    [None] when it has not come to that within [fuel] checks. *)
Fixpoint checkFile (fuel : nat) (maxAttempts : Z) (attempts : nat)
  : option (nat * callback_call) :=
  match fuel with
  | O => None
  | S fuel' =>
      let attempts := S attempts in
      if existsSync attempts then
        Some (attempts,
              match readFile attempts with
              | inl err => ReadFailed err
              | inr data => ResultsRead data
              end)
      else if Z.of_nat attempts <? maxAttempts then checkFile fuel' maxAttempts attempts
      else Some (attempts, TimedOut)
  end.

Definition waitForResultsFile (fuel : nat) (maxAttempts : Z)
  : option (nat * callback_call) :=
  checkFile fuel maxAttempts 0.

End Polling.

(** ** Pages with titles, and a results file, to run them on *)

Module TitleFixture.

Import Fixture.

Local Open Scope string_scope.

Definition pathname (s : string) : option string :=
  match parse s with
  | Some (_, _, path) => Some path
  | None => None
  end.

Fixpoint titleOf (titles : list (string * string)) (url : string) : option string :=
  match titles with
  | [] => None
  | (u, t) :: rest => if String.eqb u url then Some t else titleOf rest url
  end.

Definition titled (titles : list (string * string)) : TitlePlatform :=
  {| document := string;
     title_get := fun _ url => titleOf titles url;
     title_text := fun d => Some d;
     URL_pathname := pathname |}.

Definition team : string := "http://a.com/about/team".

(** The home page has a title, [/about] has an empty one, the others do
    not load. *)
Definition some_titles : list (string * string) :=
  [ (home, "  Welcome to A.com  "); (about, "") ].

(** What [saveUrlsWithTitles] makes of the home page, [/about] and
    [/about/team]. *)
Definition saved : list url_entry :=
  [ {| entry_name := "welcome-to-acom"; entry_url := home;
       entry_waitForTimeout := Some 1000 |};
    {| entry_name := "about"; entry_url := about; entry_waitForTimeout := None |};
    {| entry_name := "about-team"; entry_url := team; entry_waitForTimeout := None |} ].

(** A crawl of the two-link site that ends because nothing is left. *)
Definition crawled : crawl_result :=
  {| result := [home; about]; requests := [[home]; [about]] |}.

(** The file appears at the third check. *)
Definition third_check : ResultsFile :=
  {| existsSync := fun k => (3 <=? k)%nat;
     readFile := fun _ => inr "[]" |}.

(** The file never appears. *)
Definition never : ResultsFile :=
  {| existsSync := fun _ => false;
     readFile := fun _ => inl "ENOENT" |}.

End TitleFixture.

(** * Properties *)

(** ** Sets and slices *)

Module JsSetFacts.
Import JsSet.

Lemma has_In (s : t) (x : string) : has s x = true <-> In x s.
Proof.
  unfold has. rewrite existsb_exists. split.
  - intros [y [Hy He]]. apply String.eqb_eq in He. now subst.
  - intros H. exists x. split; [assumption | apply String.eqb_refl].
Qed.

Lemma has_false (s : t) (x : string) : has s x = false <-> ~ In x s.
Proof.
  rewrite <- has_In. destruct (has s x); split; intros; congruence.
Qed.

Lemma add_In (s : t) (x y : string) : In y (add s x) <-> In y s \/ y = x.
Proof.
  unfold add. destruct (has s x) eqn:E.
  - apply has_In in E. split; [now left | intros [H | ->]; assumption].
  - rewrite in_app_iff. simpl. intuition congruence.
Qed.

Lemma add_length (s : t) (x : string) :
  (length s <= length (add s x) <= S (length s))%nat.
Proof.
  unfold add. destruct (has s x); [lia|]. rewrite length_app. simpl. lia.
Qed.

Lemma add_NoDup (s : t) (x : string) : NoDup s -> NoDup (add s x).
Proof.
  intros H. unfold add. destruct (has s x) eqn:E; [assumption|].
  apply has_false in E. apply NoDup_app; [assumption| repeat constructor; auto |].
  intros a Ha [<- | []]. contradiction.
Qed.

Lemma add_all_In (ls : list string) : forall (s : t) (y : string),
  In y (add_all s ls) <-> In y s \/ In y ls.
Proof.
  unfold add_all. induction ls as [|l ls IH]; intros s y; simpl.
  - tauto.
  - rewrite IH, add_In. intuition congruence.
Qed.

Lemma add_all_length (ls : list string) : forall s : t,
  (length s <= length (add_all s ls) <= length s + length ls)%nat.
Proof.
  unfold add_all. induction ls as [|l ls IH]; intros s; simpl; [lia|].
  specialize (IH (add s l)). pose proof (add_length s l). lia.
Qed.

Lemma add_all_NoDup (ls : list string) : forall s : t,
  NoDup s -> NoDup (add_all s ls).
Proof.
  unfold add_all. induction ls as [|l ls IH]; intros s H; simpl; [assumption|].
  apply IH, add_NoDup, H.
Qed.

End JsSetFacts.

Lemma In_firstn {A : Type} (n : nat) (l : list A) (x : A) :
  In x (firstn n l) -> In x l.
Proof.
  intros H. rewrite <- (firstn_skipn n l). apply in_or_app. now left.
Qed.

Lemma In_skipn {A : Type} (n : nat) (l : list A) (x : A) :
  In x (skipn n l) -> In x l.
Proof.
  intros H. rewrite <- (firstn_skipn n l). apply in_or_app. now right.
Qed.

Lemma slice_In {A : Type} (l : list A) (a b : Z) (x : A) :
  In x (slice l a b) -> In x l.
Proof.
  unfold slice. intros H. eapply In_skipn, In_firstn, H.
Qed.

Lemma slice_empty {A : Type} (l : list A) (i : Z) : slice l i i = [].
Proof.
  unfold slice. now rewrite Z.sub_diag.
Qed.

(** From a non-negative index and with a positive width, [slice] is the
    usual window. *)
Lemma slice_window {A : Type} (l : list A) (i c : Z) :
  0 <= i -> 0 <= c ->
  slice l i (i + c) = firstn (Z.to_nat c) (skipn (Z.to_nat i) l).
Proof.
  intros Hi Hc. unfold slice.
  destruct (Z.ltb_spec i 0); [lia|]. destruct (Z.ltb_spec (i + c) 0); [lia|].
  destruct (Z.le_gt_cases (Z.of_nat (length l)) i) as [Hbig | Hin].
  - rewrite !Z.min_r by lia. rewrite Z.sub_diag.
    rewrite (skipn_all2 (n := Z.to_nat i)) by lia.
    now rewrite firstn_nil.
  - rewrite (Z.min_l i) by lia.
    destruct (Z.le_gt_cases (i + c) (Z.of_nat (length l))).
    + rewrite Z.min_l by lia. f_equal. lia.
    + rewrite Z.min_r by lia.
      rewrite !firstn_all2; trivial; rewrite length_skipn; lia.
Qed.

Lemma slice_length {A : Type} (l : list A) (i c : Z) :
  0 <= i -> 0 <= c -> Z.of_nat (length (slice l i (i + c))) <= c.
Proof.
  intros Hi Hc. rewrite slice_window by assumption.
  rewrite length_firstn. lia.
Qed.

(** ** One response handler *)

Section Handler.

Context {P : Platform}.
Variable startUrl : string.

Lemma links_length (url : string) (hrefs : list string) :
  (length (links url hrefs) <= length hrefs)%nat.
Proof.
  induction hrefs as [|h hs IH]; simpl; [lia|].
  destruct (URL_href h url); simpl; lia.
Qed.

Lemma fresh_In (v : JsSet.t) (ls : list string) (x : string) :
  In x (fresh v ls) <-> In x ls /\ ~ In x v.
Proof.
  unfold fresh. rewrite filter_In, negb_true_iff, JsSetFacts.has_false. tauto.
Qed.

Lemma fresh_nil (ls : list string) : fresh [] ls = ls.
Proof.
  induction ls as [|l ls IH]; [reflexivity|].
  change (l :: fresh [] ls = l :: ls). now rewrite IH.
Qed.

(** Whether the filter throws does not depend on [visited], and what it
    keeps is what it keeps for the empty set, less the visited links. *)
Lemma newLinks_fresh (v : JsSet.t) (ls : list string) :
  newLinks startUrl v ls = option_map (fresh v) (newLinks startUrl [] ls).
Proof.
  induction ls as [|l ls IH]; simpl; [reflexivity|].
  destruct (sameDomain startUrl l) as [same|]; [|reflexivity].
  rewrite IH. destruct (newLinks startUrl [] ls) as [kept|]; simpl; [|reflexivity].
  rewrite andb_true_r. destruct same; simpl; [|reflexivity].
  destruct (JsSet.has v l); reflexivity.
Qed.

Lemma newLinks_In (ls nl : list string) (x : string) :
  newLinks startUrl [] ls = Some nl -> In x nl ->
  sameDomain startUrl x = Some true /\ In x ls.
Proof.
  revert nl. induction ls as [|l ls IH]; simpl; intros nl H Hx.
  - injection H as <-. destruct Hx.
  - destruct (sameDomain startUrl l) as [same|] eqn:Es; [|discriminate].
    destruct (newLinks startUrl [] ls) as [kept|]; [|discriminate].
    injection H as <-. rewrite andb_true_r in Hx.
    destruct same.
    + destruct Hx as [<- | Hx]; [auto|]. destruct (IH kept eq_refl Hx); auto.
    + destruct (IH kept eq_refl Hx); auto.
Qed.

Lemma newLinks_length (ls nl : list string) :
  newLinks startUrl [] ls = Some nl -> (length nl <= length ls)%nat.
Proof.
  revert nl. induction ls as [|l ls IH]; simpl; intros nl H.
  - injection H as <-. simpl. lia.
  - destruct (sameDomain startUrl l) as [same|]; [|discriminate].
    destruct (newLinks startUrl [] ls) as [kept|]; [|discriminate].
    injection H as <-. specialize (IH kept eq_refl).
    destruct (same && _); simpl; lia.
Qed.

(** What a handler does, in one equation: it offers the page's candidates
    that [visited] does not hold when the handler runs, and adds them. *)
Lemma crawl_url_spec (k : nat) (v : JsSet.t) (url : string) :
  crawl_url startUrl k v url =
  (JsSet.add_all v (fresh v (candidates startUrl k url)),
   fresh v (candidates startUrl k url)).
Proof.
  unfold candidates, crawl_url, on_response.
  destruct (axios_get k url) as [data|]; [|reflexivity].
  rewrite newLinks_fresh.
  destruct (newLinks startUrl [] (links url (anchor_hrefs data))) as [nl|];
    reflexivity.
Qed.

Lemma sameDomain_same_host (x : string) :
  sameDomain startUrl x = Some true -> same_host startUrl x.
Proof.
  unfold sameDomain, same_host.
  destruct (URL_hostname x) as [hx|]; [|discriminate].
  destruct (URL_hostname startUrl) as [hs|]; [|discriminate].
  intros H. injection H as H. apply String.eqb_eq in H. subst. eauto.
Qed.

Lemma candidates_same_host (k : nat) (url x : string) :
  In x (candidates startUrl k url) -> same_host startUrl x.
Proof.
  unfold candidates, crawl_url, on_response.
  destruct (axios_get k url) as [data|]; [|intros []].
  destruct (newLinks startUrl [] (links url (anchor_hrefs data))) as [nl|] eqn:E;
    [|intros []].
  simpl. intros H. apply sameDomain_same_host.
  now destruct (newLinks_In _ _ _ E H).
Qed.

Lemma candidates_failed (k : nat) (url : string) :
  axios_get k url = None -> candidates startUrl k url = [].
Proof.
  unfold candidates, crawl_url. now intros ->.
Qed.

(** With an unparsable seed the comparison of line 81 throws for every
    link, so no page offers anything. *)
Lemma candidates_invalid_seed (k : nat) (url : string) :
  URL_hostname startUrl = None -> candidates startUrl k url = [].
Proof.
  intros Hs. unfold candidates, crawl_url, on_response.
  destruct (axios_get k url) as [data|]; [|reflexivity].
  destruct (links url (anchor_hrefs data)) as [|l ls]; [reflexivity|].
  simpl. unfold sameDomain. rewrite Hs.
  destruct (URL_hostname l); reflexivity.
Qed.

Lemma candidates_length (K : nat) (k : nat) (url : string) :
  (forall k' u data, axios_get k' u = Some data ->
                     (length (anchor_hrefs data) <= K)%nat) ->
  (length (candidates startUrl k url) <= K)%nat.
Proof.
  intros HK. unfold candidates, crawl_url, on_response.
  destruct (axios_get k url) as [data|] eqn:Eg; [|simpl; lia].
  destruct (newLinks startUrl [] (links url (anchor_hrefs data))) as [nl|] eqn:E;
    [|simpl; lia].
  simpl. apply newLinks_length in E.
  pose proof (links_length url (anchor_hrefs data)).
  specialize (HK _ _ _ Eg). lia.
Qed.

Lemma crawl_url_In (k : nat) (v : JsSet.t) (url x : string) :
  In x (fst (crawl_url startUrl k v url)) <->
  In x v \/ In x (candidates startUrl k url).
Proof.
  rewrite crawl_url_spec. simpl. rewrite JsSetFacts.add_all_In, fresh_In.
  destruct (in_dec string_dec x v); tauto.
Qed.

Lemma crawl_url_found (k : nat) (v : JsSet.t) (url x : string) :
  In x (snd (crawl_url startUrl k v url)) ->
  In x (fst (crawl_url startUrl k v url)) /\ ~ In x v.
Proof.
  rewrite crawl_url_spec. simpl. rewrite JsSetFacts.add_all_In.
  intros H. split; [now right|]. now apply fresh_In in H.
Qed.

Lemma fresh_length (v : JsSet.t) (ls : list string) :
  (length (fresh v ls) <= length ls)%nat.
Proof. apply filter_length_le. Qed.

Lemma crawl_url_length (k : nat) (v : JsSet.t) (url : string) :
  (length v <= length (fst (crawl_url startUrl k v url))
   <= length v + length (candidates startUrl k url))%nat.
Proof.
  rewrite crawl_url_spec. simpl.
  pose proof (JsSetFacts.add_all_length (fresh v (candidates startUrl k url)) v).
  pose proof (fresh_length v (candidates startUrl k url)). lia.
Qed.

Lemma crawl_url_NoDup (k : nat) (v : JsSet.t) (url : string) :
  NoDup v -> NoDup (fst (crawl_url startUrl k v url)).
Proof.
  rewrite crawl_url_spec. simpl. apply JsSetFacts.add_all_NoDup.
Qed.

End Handler.

(** ** One chunk *)

Section Chunk.

Context {P : Platform}.
Variable startUrl : string.

Lemma settled_out_perm {A : Type} (l : list A) (j : nat) (x : A) :
  nth_error l j = Some x ->
  Permutation (x :: firstn j l ++ skipn (S j) l) l.
Proof.
  intros H. destruct (nth_error_split l j H) as (l1 & l2 & -> & <-).
  rewrite firstn_app, Nat.sub_diag, firstn_all, firstn_O, app_nil_r.
  replace (S (length l1)) with (length l1 + 1)%nat by lia.
  rewrite skipn_app, Nat.add_comm, <- skipn_skipn, skipn_all.
  replace (1 + length l1 - length l1)%nat with 1%nat by lia.
  simpl. apply Permutation_middle.
Qed.

(** Whatever [completion] says, the handlers of a chunk run one after the
    other in some order of the chunk: [settle] is a fold of [settle_one]
    over a permutation of the pending requests. *)
Lemma settle_fold (n : nat) : forall step pending v s,
  length pending = n ->
  exists order, Permutation order pending /\
    settle startUrl n step pending v s = fold_left (settle_one startUrl) order (v, s).
Proof.
  induction n as [|n IH]; intros step pending v s Hlen.
  - destruct pending; [|discriminate]. exists []. split; [constructor | reflexivity].
  - cbn [settle].
    assert (Hj : (Nat.modulo (completion step) (length pending) < length pending)%nat)
      by (apply Nat.mod_upper_bound; lia).
    destruct (nth_error pending _) as [[k url]|] eqn:En;
      [| apply nth_error_None in En; lia].
    pose proof (settled_out_perm _ _ _ En) as Hperm.
    set (rest := firstn _ pending ++ skipn _ pending) in *.
    assert (Hrest : length rest = n).
    { apply Permutation_length in Hperm. simpl in Hperm. lia. }
    destruct (crawl_url startUrl k v url) as [v' found] eqn:Ec.
    destruct (IH (S step) rest v' ((k, found) :: s) Hrest) as (order & Ho & Hs).
    exists ((k, url) :: order). split.
    + now rewrite Ho.
    + rewrite Hs. cbn [fold_left].
      assert (settle_one startUrl (v, s) (k, url) = (v', (k, found) :: s)) as ->
        by (unfold settle_one; cbn [fst snd]; now rewrite Ec).
      reflexivity.
Qed.

(** Facts about any order of handlers. *)
Lemma settle_one_fst (acc : JsSet.t * list (nat * list string)) (p : nat * string) :
  fst (settle_one startUrl acc p) = fst (crawl_url startUrl (fst p) (fst acc) (snd p)).
Proof.
  unfold settle_one. now destruct (crawl_url _ _ _ _).
Qed.

Lemma settle_one_snd (acc : JsSet.t * list (nat * list string)) (p : nat * string) :
  snd (settle_one startUrl acc p) =
  (fst p, snd (crawl_url startUrl (fst p) (fst acc) (snd p))) :: snd acc.
Proof.
  unfold settle_one. now destruct (crawl_url _ _ _ _).
Qed.

Lemma order_In (order : list (nat * string)) : forall acc x,
  In x (fst (fold_left (settle_one startUrl) order acc)) <->
  In x (fst acc) \/
  exists p, In p order /\ In x (candidates startUrl (fst p) (snd p)).
Proof.
  induction order as [|p order IH]; intros acc x; simpl.
  - split; [now left | intros [H | (p & [] & _)]; exact H].
  - rewrite IH, settle_one_fst, crawl_url_In. split.
    + intros [[H | H] | (q & Hq & H)]; eauto 6.
    + intros [H | (q & [<- | Hq] & H)]; eauto 6.
Qed.

Lemma order_length (K : nat) (order : list (nat * string)) :
  (forall k u, length (candidates startUrl k u) <= K)%nat ->
  forall acc,
  (length (fst acc) <= length (fst (fold_left (settle_one startUrl) order acc))
   <= length (fst acc) + K * length order)%nat.
Proof.
  intros HK. induction order as [|p order IH]; intros acc; cbn [fold_left length].
  - lia.
  - specialize (IH (settle_one startUrl acc p)).
    rewrite settle_one_fst in IH.
    pose proof (crawl_url_length startUrl (fst p) (fst acc) (snd p)).
    specialize (HK (fst p) (snd p)). nia.
Qed.

Lemma order_NoDup (order : list (nat * string)) : forall acc,
  NoDup (fst acc) -> NoDup (fst (fold_left (settle_one startUrl) order acc)).
Proof.
  induction order as [|p order IH]; intros acc H; simpl; [assumption|].
  apply IH. rewrite settle_one_fst. now apply crawl_url_NoDup.
Qed.

(** Every link a promise of the chunk fulfils with is in [visited] by then
    and was not there when the chunk started. *)
Lemma order_found (v0 : JsSet.t) (order : list (nat * string)) : forall acc,
  incl v0 (fst acc) ->
  (forall k f x, In (k, f) (snd acc) -> In x f -> In x (fst acc) /\ ~ In x v0) ->
  let r := fold_left (settle_one startUrl) order acc in
  incl v0 (fst r) /\
  (forall k f x, In (k, f) (snd r) -> In x f -> In x (fst r) /\ ~ In x v0).
Proof.
  induction order as [|p order IH]; intros acc Hincl Hacc; simpl; [auto|].
  apply IH.
  - rewrite settle_one_fst. intros x Hx. apply crawl_url_In. left. now apply Hincl.
  - intros k f x. rewrite settle_one_snd, settle_one_fst. simpl.
    intros [Heq | Hin] Hx.
    + injection Heq as <- <-. apply crawl_url_found in Hx.
      destruct Hx as [Hx Hn]. split; [assumption|]. intros Hv. apply Hn, Hincl, Hv.
    + destruct (Hacc k f x Hin Hx) as [Hv Hn]. split; [|assumption].
      apply crawl_url_In. now left.
Qed.

Lemma value_of_In (k : nat) (settled : list (nat * list string)) (x : string) :
  In x (value_of k settled) -> exists f, In (k, f) settled /\ In x f.
Proof.
  induction settled as [|[k' f] rest IH]; simpl; [intros []|].
  destruct (Nat.eqb_spec k k') as [<- | Hne]; intros H.
  - eauto.
  - destruct (IH H) as (f' & Hf & Hx). eauto.
Qed.

Lemma promises_In (chunk : list string) : forall (a k : nat) (u : string),
  In (k, u) (combine (seq a (length chunk)) chunk) <->
  exists j, k = (a + j)%nat /\ nth_error chunk j = Some u.
Proof.
  induction chunk as [|c chunk IH]; intros a k u; simpl.
  - split; [intros [] | intros ([|j] & _ & H); discriminate].
  - rewrite IH. split.
    + intros [H | (j & -> & Hj)].
      * injection H as <- <-. exists 0%nat. split; [lia | reflexivity].
      * exists (S j). split; [lia | assumption].
    + intros ([|j] & -> & Hj).
      * left. injection Hj as ->. f_equal. lia.
      * right. exists j. split; [lia | assumption].
Qed.

(** The handlers of a chunk, run in the order they settled in. *)
Lemma run_chunk_order (chunk : list string) (st : level_state) :
  exists order,
    Permutation order (combine (seq (req st) (length chunk)) chunk) /\
    let r := fold_left (settle_one startUrl) order (visited st, []) in
    visited (run_chunk startUrl chunk st) = fst r /\
    nextLevel (run_chunk startUrl chunk st) =
      nextLevel st ++
      concat (map (fun p => value_of (fst p) (snd r))
                  (combine (seq (req st) (length chunk)) chunk)).
Proof.
  unfold run_chunk.
  destruct (settle_fold _ (req st) (combine (seq (req st) (length chunk)) chunk)
                        (visited st) [] eq_refl) as (order & Hp & Hs).
  exists order. split; [exact Hp|]. rewrite Hs.
  destruct (fold_left _ order _) as [v' settled]. simpl. auto.
Qed.

Lemma run_chunk_fetched (chunk : list string) (st : level_state) :
  fetched (run_chunk startUrl chunk st) = fetched st ++ chunk.
Proof.
  unfold run_chunk. now destruct (settle _ _ _ _ _ _).
Qed.

Lemma run_chunk_req (chunk : list string) (st : level_state) :
  req (run_chunk startUrl chunk st) = (req st + length chunk)%nat.
Proof.
  unfold run_chunk. now destruct (settle _ _ _ _ _ _).
Qed.

(** An empty chunk changes nothing. *)
Lemma run_chunk_nil (st : level_state) : run_chunk startUrl [] st = st.
Proof.
  destruct st as [v nl r f]. unfold run_chunk. simpl.
  now rewrite !app_nil_r, Nat.add_0_r.
Qed.

(** The members of [visited] after a chunk: those before it and the
    candidates of every page of the chunk. *)
Lemma run_chunk_In (chunk : list string) (st : level_state) (x : string) :
  In x (visited (run_chunk startUrl chunk st)) <->
  In x (visited st) \/
  exists j u, nth_error chunk j = Some u /\
              In x (candidates startUrl (req st + j) u).
Proof.
  destruct (run_chunk_order chunk st) as (order & Hp & Hv & _).
  rewrite Hv, order_In. simpl. split.
  - intros [H | ([k u] & Hin & H)]; [now left | right].
    apply (Permutation_in _ Hp), promises_In in Hin.
    destruct Hin as (j & -> & Hj). eauto.
  - intros [H | (j & u & Hj & H)]; [now left | right].
    exists ((req st + j)%nat, u). split; [|exact H].
    apply (Permutation_in _ (Permutation_sym Hp)), promises_In. eauto.
Qed.

Lemma run_chunk_incl (chunk : list string) (st : level_state) :
  incl (visited st) (visited (run_chunk startUrl chunk st)).
Proof.
  intros x Hx. apply run_chunk_In. now left.
Qed.

Lemma run_chunk_NoDup (chunk : list string) (st : level_state) :
  NoDup (visited st) -> NoDup (visited (run_chunk startUrl chunk st)).
Proof.
  destruct (run_chunk_order chunk st) as (order & _ & -> & _).
  apply (order_NoDup order (visited st, [])).
Qed.

(** A chunk adds at most [K] links for each of its pages. *)
Lemma run_chunk_length (K : nat) (chunk : list string) (st : level_state) :
  (forall k u, length (candidates startUrl k u) <= K)%nat ->
  (length (visited (run_chunk startUrl chunk st))
   <= length (visited st) + K * length chunk)%nat.
Proof.
  intros HK. destruct (run_chunk_order chunk st) as (order & Hp & -> & _).
  pose proof (order_length K order HK (visited st, [])) as H. simpl in H.
  apply Permutation_length in Hp.
  rewrite length_combine, length_seq, Nat.min_id in Hp. rewrite <- Hp. lia.
Qed.

(** What a chunk appends to [nextLevel] is in [visited] afterwards and was
    not there before. *)
Lemma run_chunk_nextLevel (chunk : list string) (st : level_state) (x : string) :
  In x (nextLevel (run_chunk startUrl chunk st)) ->
  In x (nextLevel st) \/
  (In x (visited (run_chunk startUrl chunk st)) /\ ~ In x (visited st)).
Proof.
  destruct (run_chunk_order chunk st) as (order & _ & Hv & Hn).
  rewrite Hn, Hv. clear Hn Hv. rewrite in_app_iff.
  intros [H | H]; [now left | right].
  apply in_concat in H. destruct H as (f & Hf & Hx).
  apply in_map_iff in Hf. destruct Hf as (p & <- & _).
  apply value_of_In in Hx. destruct Hx as (f & Hf & Hx).
  destruct (order_found (visited st) order (visited st, [])) as [_ H].
  - apply incl_refl.
  - intros ? ? ? [].
  - exact (H _ _ _ Hf Hx).
Qed.

(** The values of the promises, one by one.  [settle_one] puts the value
    of a request in front of the values known so far. *)
Lemma order_snd (order : list (nat * string)) : forall acc,
  exists new,
    snd (fold_left (settle_one startUrl) order acc) = new ++ snd acc /\
    map fst new = rev (map fst order).
Proof.
  induction order as [|p order IH]; intros acc; simpl.
  - now exists [].
  - destruct (IH (settle_one startUrl acc p)) as (new & Hnew & Hkeys).
    rewrite settle_one_snd in Hnew.
    exists (new ++ [(fst p, snd (crawl_url startUrl (fst p) (fst acc) (snd p)))]).
    split.
    + now rewrite Hnew, <- app_assoc.
    + now rewrite map_app, Hkeys.
Qed.

Lemma value_of_skip (k : nat) (new rest : list (nat * list string)) :
  ~ In k (map fst new) -> value_of k (new ++ rest) = value_of k rest.
Proof.
  induction new as [|[k' f] new IH]; simpl; intros H; [reflexivity|].
  destruct (Nat.eqb_spec k k') as [-> | Hne]; [tauto|]. apply IH. tauto.
Qed.

(** The value of a promise is what its handler kept: the candidates of its
    page that [visited] did not hold after the handlers that ran before it. *)
Lemma order_value (prefix suffix : list (nat * string)) (k : nat) (u : string)
    (acc : JsSet.t * list (nat * list string)) :
  ~ In k (map fst suffix) ->
  value_of k (snd (fold_left (settle_one startUrl) (prefix ++ (k, u) :: suffix) acc)) =
  fresh (fst (fold_left (settle_one startUrl) prefix acc)) (candidates startUrl k u).
Proof.
  intros Hk. rewrite fold_left_app. cbn [fold_left].
  destruct (order_snd suffix
              (settle_one startUrl (fold_left (settle_one startUrl) prefix acc) (k, u)))
    as (new & -> & Hkeys).
  rewrite value_of_skip.
  - rewrite settle_one_snd. cbn [value_of fst snd]. rewrite Nat.eqb_refl.
    now rewrite crawl_url_spec.
  - rewrite Hkeys, <- in_rev. exact Hk.
Qed.

Lemma promises_keys (chunk : list string) (a : nat) :
  map fst (combine (seq a (length chunk)) chunk) = seq a (length chunk).
Proof.
  revert a. induction chunk as [|c chunk IH]; intros a; simpl; [reflexivity|].
  now rewrite IH.
Qed.

Lemma count_occ_concat_none {A : Type} (f : A -> list string) (L : string)
    (l : list A) :
  (forall p, In p l -> ~ In L (f p)) ->
  count_occ string_dec (concat (map f l)) L = 0%nat.
Proof.
  induction l as [|p l IH]; intros H; simpl; [reflexivity|].
  rewrite count_occ_app, IH by (intros q Hq; apply H; now right).
  rewrite Nat.add_0_r. apply count_occ_not_In, H. now left.
Qed.

Lemma fresh_count (v : JsSet.t) (ls : list string) (L : string) :
  ~ In L v -> count_occ string_dec (fresh v ls) L = count_occ string_dec ls L.
Proof.
  intros Hv. apply JsSetFacts.has_false in Hv.
  induction ls as [|l ls IH]; [reflexivity|].
  unfold fresh in *. cbn [filter].
  destruct (string_dec l L) as [-> | Hne].
  - rewrite Hv. cbn [negb]. rewrite !count_occ_cons_eq by reflexivity. now rewrite IH.
  - rewrite (count_occ_cons_neq _ _ Hne).
    destruct (negb _); [rewrite (count_occ_cons_neq _ _ Hne)|]; exact IH.
Qed.

(** A link that [visited] does not hold when the chunk starts, and that
    one page of the chunk alone offers, is appended to [nextLevel] as often
    as that page names it, in whatever order the chunk settles. *)
Lemma run_chunk_queues (chunk : list string) (st : level_state) (j : nat)
    (u L : string) :
  nth_error chunk j = Some u ->
  ~ In L (visited st) ->
  (forall j' u', j' <> j -> nth_error chunk j' = Some u' ->
                 ~ In L (candidates startUrl (req st + j') u')) ->
  count_occ string_dec (nextLevel (run_chunk startUrl chunk st)) L =
  (count_occ string_dec (nextLevel st) L
   + count_occ string_dec (candidates startUrl (req st + j) u) L)%nat.
Proof.
  intros Hj Hv Hothers.
  destruct (run_chunk_order chunk st) as (order & Hp & _ & ->).
  rewrite count_occ_app. f_equal.
  set (promises := combine (seq (req st) (length chunk)) chunk) in *.
  set (r := fold_left (settle_one startUrl) order (visited st, [])).
  assert (Hkeys : NoDup (map fst order)).
  { eapply Permutation_NoDup; [apply Permutation_map, Permutation_sym, Hp|].
    unfold promises. rewrite promises_keys. apply seq_NoDup. }
  assert (Hval : forall j' u', nth_error chunk j' = Some u' ->
    exists v, value_of (req st + j') (snd r)
              = fresh v (candidates startUrl (req st + j') u') /\
              (forall x, In x v -> In x (visited st) \/
                 exists i w, i <> j' /\ nth_error chunk i = Some w /\
                             In x (candidates startUrl (req st + i) w))).
  { intros j' u' Hj'.
    assert (Hin : In ((req st + j')%nat, u') order).
    { apply (Permutation_in _ (Permutation_sym Hp)), promises_In. eauto. }
    destruct (in_split _ _ Hin) as (prefix & suffix & Ho).
    unfold r. rewrite Ho in Hkeys |- *.
    rewrite map_app in Hkeys. cbn [map fst] in Hkeys.
    pose proof (NoDup_remove_2 _ _ _ Hkeys) as Hnot.
    rewrite in_app_iff in Hnot.
    exists (fst (fold_left (settle_one startUrl) prefix (visited st, []))).
    split; [apply order_value; tauto|].
    intros x Hx. apply order_In in Hx. cbn [fst] in Hx.
    destruct Hx as [Hx | ([k w] & Hkw & Hx)]; [now left | right].
    assert (Hkw' : In (k, w) promises).
    { apply (Permutation_in _ Hp). rewrite Ho. apply in_or_app. now left. }
    apply promises_In in Hkw'. destruct Hkw' as (i & -> & Hi).
    exists i, w. repeat split; trivial.
    intros ->. apply Hnot. left. apply in_map_iff.
    exists ((req st + j')%nat, w). auto. }
  assert (Hzero : forall k w, In (k, w) promises -> k <> (req st + j)%nat ->
    ~ In L (value_of k (snd r))).
  { intros k w Hkw Hne. apply promises_In in Hkw. destruct Hkw as (i & -> & Hi).
    destruct (Hval i w Hi) as (v & -> & _). rewrite fresh_In.
    intros [Hc _]. apply (Hothers i w); [intros -> | |]; tauto. }
  assert (Hsplit : In ((req st + j)%nat, u) promises) by (apply promises_In; eauto).
  destruct (in_split _ _ Hsplit) as (l1 & l2 & Hl).
  assert (Hnd : NoDup (map fst promises))
    by (unfold promises; rewrite promises_keys; apply seq_NoDup).
  rewrite Hl in Hnd |- *. rewrite map_app in Hnd. cbn [map fst] in Hnd.
  pose proof (NoDup_remove_2 _ _ _ Hnd) as Hnot. rewrite in_app_iff in Hnot.
  rewrite map_app, concat_app. cbn [map concat fst].
  rewrite !count_occ_app.
  rewrite !count_occ_concat_none.
  - destruct (Hval j u Hj) as (v & -> & Hv'). cbn [Nat.add]. rewrite Nat.add_0_r.
    apply fresh_count. intros Hx. destruct (Hv' L Hx) as [H | (i & w & Hi & Hw & H)].
    + tauto.
    + apply (Hothers i w); assumption.
  - intros [k w] Hkw. apply (Hzero k w).
    + rewrite Hl. apply in_or_app. right. now right.
    + intros ->. apply Hnot. right. apply in_map_iff. exists ((req st + j)%nat, w). auto.
  - intros [k w] Hkw. apply (Hzero k w).
    + rewrite Hl. apply in_or_app. now left.
    + intros ->. apply Hnot. left. apply in_map_iff. exists ((req st + j)%nat, w). auto.
Qed.

End Chunk.

(** ** One level: the loop of line 65 *)

Section Level.

Context {P : Platform}.
Variables (startUrl : string) (concurrencyLimit maxPages : Z).

Local Abbreviation step := (level_step startUrl concurrencyLimit maxPages).
Local Abbreviation loop := (level_loop startUrl concurrencyLimit maxPages).

(** More fuel does not change what a loop that finishes returns. *)
Lemma level_loop_mono (fuel : nat) : forall fuel' cl i st st',
  loop fuel cl i st = Some st' -> (fuel <= fuel')%nat ->
  loop fuel' cl i st = Some st'.
Proof.
  induction fuel as [|fuel IH]; intros fuel' cl i st st' H Hle; [discriminate|].
  destruct fuel' as [|fuel']; [lia|]. simpl in *.
  destruct (step cl i st) as [[i1 st1] | st1]; [|assumption].
  apply IH; [assumption | lia].
Qed.

(** A property of [visited] that every chunk keeps holds when the level
    ends. *)
Lemma level_loop_visited (I : JsSet.t -> Prop) :
  (forall chunk st, I (visited st) -> I (visited (run_chunk startUrl chunk st))) ->
  forall fuel cl i st st',
  I (visited st) -> loop fuel cl i st = Some st' -> I (visited st').
Proof.
  intros Hchunk. induction fuel as [|fuel IH]; intros cl i st st' HI H;
    [discriminate|].
  simpl in H. unfold level_step in H.
  destruct (i <? Z.of_nat (length cl)).
  - destruct (JsSet.size _ >=? maxPages).
    + injection H as <-. now apply Hchunk.
    + eapply IH; [|exact H]. now apply Hchunk.
  - now injection H as <-.
Qed.

(** The links collected for the next level are in [visited], and none of
    them was there when the level started. *)
Lemma level_loop_nextLevel (seen : JsSet.t) (fuel : nat) : forall cl i st st',
  incl seen (visited st) ->
  (forall x, In x (nextLevel st) -> In x (visited st) /\ ~ In x seen) ->
  loop fuel cl i st = Some st' ->
  incl seen (visited st') /\
  (forall x, In x (nextLevel st') -> In x (visited st') /\ ~ In x seen).
Proof.
  assert (Hchunk : forall chunk st,
    incl seen (visited st) ->
    (forall x, In x (nextLevel st) -> In x (visited st) /\ ~ In x seen) ->
    incl seen (visited (run_chunk startUrl chunk st)) /\
    (forall x, In x (nextLevel (run_chunk startUrl chunk st)) ->
               In x (visited (run_chunk startUrl chunk st)) /\ ~ In x seen)).
  { intros chunk st Hi Hn. split.
    - eapply incl_tran; [exact Hi | apply run_chunk_incl].
    - intros x Hx. destruct (run_chunk_nextLevel _ _ _ _ Hx) as [H | [H1 H2]].
      + destruct (Hn x H). split; [now apply run_chunk_incl | assumption].
      + split; [assumption|]. intros Hs. apply H2, Hi, Hs. }
  induction fuel as [|fuel IH]; intros cl i st st' Hi Hn H; [discriminate|].
  simpl in H. unfold level_step in H.
  destruct (i <? Z.of_nat (length cl)).
  - destruct (Hchunk (slice cl i (i + concurrencyLimit)) st Hi Hn) as [Hi' Hn'].
    destruct (JsSet.size _ >=? maxPages).
    + injection H as <-. auto.
    + eapply IH; eassumption.
  - injection H as <-. auto.
Qed.

(** Only URLs of the level are requested. *)
Lemma level_loop_fetched_In (fuel : nat) : forall cl i st st',
  (forall x, In x (fetched st) -> In x cl) ->
  loop fuel cl i st = Some st' ->
  forall x, In x (fetched st') -> In x cl.
Proof.
  induction fuel as [|fuel IH]; intros cl i st st' Hf H; [discriminate|].
  simpl in H. unfold level_step in H.
  assert (Hchunk : forall x,
    In x (fetched (run_chunk startUrl (slice cl i (i + concurrencyLimit)) st)) ->
    In x cl).
  { intros x. rewrite run_chunk_fetched, in_app_iff.
    intros [Hx | Hx]; [auto | eapply slice_In, Hx]. }
  destruct (i <? Z.of_nat (length cl)).
  - destruct (JsSet.size _ >=? maxPages).
    + now injection H as <-.
    + eapply IH; eassumption.
  - now injection H as <-.
Qed.

(** The page budget is looked at after a chunk only: a level that starts
    below a bound [B >= maxPages - 1] ends at most one chunk above it. *)
Lemma level_loop_size (K : nat) (B : Z) :
  (forall k u, length (candidates startUrl k u) <= K)%nat ->
  1 <= concurrencyLimit -> maxPages - 1 <= B ->
  forall fuel cl i st st',
  0 <= i -> JsSet.size (visited st) <= B ->
  loop fuel cl i st = Some st' ->
  JsSet.size (visited st') <= B + concurrencyLimit * Z.of_nat K.
Proof.
  intros HK Hc HB. induction fuel as [|fuel IH]; intros cl i st st' Hi Hs H;
    [discriminate|].
  simpl in H. unfold level_step in H.
  destruct (i <? Z.of_nat (length cl)).
  - set (chunk := slice cl i (i + concurrencyLimit)) in *.
    pose proof (run_chunk_length startUrl K chunk st HK) as Hlen.
    pose proof (slice_length cl i concurrencyLimit Hi ltac:(lia)) as Hch.
    fold chunk in Hch. unfold JsSet.size in *.
    destruct (Z.geb_spec (Z.of_nat (length (visited (run_chunk startUrl chunk st))))
                maxPages).
    + injection H as <-. nia.
    + eapply IH; [| |exact H]; lia.
  - injection H as <-. unfold JsSet.size in *. nia.
Qed.

Lemma firstn_plus {A : Type} (n m : nat) : forall l : list A,
  firstn n l ++ firstn m (skipn n l) = firstn (n + m) l.
Proof.
  induction n as [|n IH]; intros [|x l]; simpl; trivial.
  - now rewrite firstn_nil.
  - now rewrite IH.
Qed.

(** The requests of a level are its URLs in order, one request for each
    entry of the array; all of them unless the page budget ends the level. *)
Lemma level_loop_fetched (fuel : nat) : forall cl i st st',
  1 <= concurrencyLimit -> 0 <= i ->
  loop fuel cl i st = Some st' ->
  (exists m, fetched st' = fetched st ++ firstn m (skipn (Z.to_nat i) cl)) /\
  (JsSet.size (visited st') < maxPages ->
   fetched st' = fetched st ++ skipn (Z.to_nat i) cl).
Proof.
  induction fuel as [|fuel IH]; intros cl i st st' Hc Hi H; [discriminate|].
  simpl in H. unfold level_step in H.
  destruct (Z.ltb_spec i (Z.of_nat (length cl))).
  - rewrite slice_window in H by lia.
    set (chunk := firstn _ _) in *.
    destruct (Z.geb_spec (JsSet.size (visited (run_chunk startUrl chunk st)))
                maxPages).
    + injection H as <-. rewrite run_chunk_fetched. split; [|lia].
      now exists (Z.to_nat concurrencyLimit).
    + apply IH in H; [|lia..]. rewrite run_chunk_fetched in H.
      replace (Z.to_nat (i + concurrencyLimit))
        with (Z.to_nat concurrencyLimit + Z.to_nat i)%nat in H by lia.
      rewrite <- skipn_skipn in H. destruct H as [[m Hm] Hall]. split.
      * exists (Z.to_nat concurrencyLimit + m)%nat.
        rewrite Hm, <- app_assoc. f_equal. apply firstn_plus.
      * intros Hlt. rewrite (Hall Hlt), <- app_assoc. f_equal.
        apply firstn_skipn.
  - injection H as <-. split.
    + exists 0%nat. now rewrite app_nil_r.
    + intros _. rewrite skipn_all2 by lia. now rewrite app_nil_r.
Qed.

(** With a positive chunk size the loop ends: the index grows by at least
    one each turn. *)
Lemma level_loop_terminates (fuel : nat) : forall cl i st,
  1 <= concurrencyLimit -> 0 <= i ->
  (0 < fuel)%nat -> Z.of_nat (length cl) - i < Z.of_nat fuel ->
  exists st', loop fuel cl i st = Some st'.
Proof.
  induction fuel as [|fuel IH]; intros cl i st Hc Hi Hpos Hfuel; [lia|].
  simpl. unfold level_step.
  destruct (Z.ltb_spec i (Z.of_nat (length cl))); [|eauto].
  destruct (JsSet.size _ >=? maxPages); [eauto|].
  apply IH; lia.
Qed.

(** What the page budget does bound: a chunk is started only while
    [visited] is within the bound, and all that has been requested by the
    end of that chunk was in [visited] when it started. *)
Lemma level_loop_requested (B : Z) (old : list string) :
  maxPages - 1 <= B ->
  forall fuel cl i st st',
  NoDup (visited st) -> JsSet.size (visited st) <= B ->
  incl cl (visited st) -> incl (old ++ fetched st) (visited st) ->
  loop fuel cl i st = Some st' ->
  exists V, NoDup V /\ JsSet.size V <= B /\
            incl (old ++ fetched st') V /\
            (JsSet.size (visited st') < maxPages -> V = visited st').
Proof.
  intros HB. induction fuel as [|fuel IH]; intros cl i st st' Hnd Hs Hcl Hold H;
    [discriminate|].
  simpl in H. unfold level_step in H.
  destruct (i <? Z.of_nat (length cl)).
  - set (chunk := slice cl i (i + concurrencyLimit)) in *.
    assert (Hreq : incl (old ++ fetched (run_chunk startUrl chunk st)) (visited st)).
    { rewrite run_chunk_fetched, app_assoc. apply incl_app; [exact Hold|].
      intros x Hx. apply Hcl. eapply slice_In, Hx. }
    destruct (Z.geb_spec (JsSet.size (visited (run_chunk startUrl chunk st)))
                maxPages).
    + injection H as <-. exists (visited st). repeat split; trivial. lia.
    + eapply IH; [| | | |exact H].
      * now apply run_chunk_NoDup.
      * lia.
      * eapply incl_tran; [exact Hcl | apply run_chunk_incl].
      * eapply incl_tran; [exact Hreq | apply run_chunk_incl].
  - injection H as <-. exists (visited st). repeat split; trivial.
Qed.

End Level.

(** ** The levels: the loop of line 61 *)

Section Depth.

Context {P : Platform}.
Variables (startUrl : string) (concurrencyLimit maxPages : Z).

Local Abbreviation loop := (level_loop startUrl concurrencyLimit maxPages).
Local Abbreviation levels_loop := (depth_loop startUrl concurrencyLimit maxPages).

Lemma depth_loop_mono (levels : nat) : forall fuel fuel' cl seen issued log r,
  levels_loop fuel levels cl seen issued log = Some r -> (fuel <= fuel')%nat ->
  levels_loop fuel' levels cl seen issued log = Some r.
Proof.
  induction levels as [|levels IH]; intros fuel fuel' cl seen issued log r H Hle;
    [exact H|].
  simpl in *. destruct (loop fuel cl 0 _) as [st|] eqn:El; [|discriminate].
  rewrite (level_loop_mono _ _ _ _ _ _ _ _ _ El Hle).
  destruct (_ || _); [exact H | eapply IH; eassumption].
Qed.

Lemma depth_loop_visited (I : JsSet.t -> Prop) :
  (forall chunk st, I (visited st) -> I (visited (run_chunk startUrl chunk st))) ->
  forall levels fuel cl seen issued log r,
  I seen -> levels_loop fuel levels cl seen issued log = Some r -> I (result r).
Proof.
  intros Hchunk. induction levels as [|levels IH];
    intros fuel cl seen issued log r HI H; simpl in H.
  - now injection H as <-.
  - destruct (loop fuel cl 0 _) as [st|] eqn:El; [|discriminate].
    apply (level_loop_visited _ _ _ I Hchunk) in El; [|exact HI].
    destruct (_ || _); [now injection H as <- | eapply IH; eassumption].
Qed.

(** Each turn of the outer loop logs one level. *)
Lemma depth_loop_levels (levels : nat) : forall fuel cl seen issued log r,
  levels_loop fuel levels cl seen issued log = Some r ->
  (length (requests r) <= length log + levels)%nat.
Proof.
  induction levels as [|levels IH]; intros fuel cl seen issued log r H; simpl in H.
  - injection H as <-. simpl. lia.
  - destruct (loop fuel cl 0 _) as [st|]; [|discriminate].
    destruct (_ || _).
    + injection H as <-. simpl. rewrite length_app. simpl. lia.
    + apply IH in H. rewrite length_app in H. simpl in H. lia.
Qed.

Lemma depth_loop_size (K : nat) :
  (forall k u, length (candidates startUrl k u) <= K)%nat ->
  1 <= concurrencyLimit ->
  forall levels fuel cl seen issued log r,
  JsSet.size seen <= Z.max 1 (maxPages - 1) ->
  levels_loop fuel levels cl seen issued log = Some r ->
  JsSet.size (result r) <= Z.max 1 (maxPages - 1) + concurrencyLimit * Z.of_nat K.
Proof.
  intros HK Hc. induction levels as [|levels IH];
    intros fuel cl seen issued log r Hs H; simpl in H.
  - injection H as <-. simpl. nia.
  - destruct (loop fuel cl 0 _) as [st|] eqn:El; [|discriminate].
    apply (level_loop_size _ _ _ K (Z.max 1 (maxPages - 1)) HK Hc) in El;
      [| lia | lia | exact Hs].
    destruct (Z.geb_spec (JsSet.size (visited st)) maxPages); simpl in H.
    + now injection H as <-.
    + destruct (Nat.eqb _ 0); [now injection H as <-|].
      eapply IH; [|exact H]. lia.
Qed.

Lemma never_again_snoc (log : list (list string)) (l : list string) :
  never_again log ->
  (forall earlier x, In earlier log -> In x earlier -> ~ In x l) ->
  never_again (log ++ [l]).
Proof.
  unfold never_again. intros H Hl. induction H as [|a log Ha Hlog IH]; simpl.
  - repeat constructor.
  - constructor.
    + apply Forall_app. split; [exact Ha|]. constructor; [|constructor].
      intros x. apply Hl. now left.
    + apply IH. intros earlier x He. apply Hl. now right.
Qed.

(** A URL is in the array of one level only: what a level collects for the
    next one is new to [visited], and all that was requested is in it. *)
Lemma depth_loop_never_again (levels : nat) : forall fuel cl seen issued log r,
  never_again log ->
  (forall l x, In l log -> In x l -> In x seen /\ ~ In x cl) ->
  incl cl seen ->
  levels_loop fuel levels cl seen issued log = Some r ->
  never_again (requests r).
Proof.
  induction levels as [|levels IH]; intros fuel cl seen issued log r Hlog Hold Hcl H;
    simpl in H.
  - now injection H as <-.
  - destruct (loop fuel cl 0 _) as [st|] eqn:El; [|discriminate].
    assert (Hf : forall x, In x (fetched st) -> In x cl).
    { eapply level_loop_fetched_In; [|exact El]. intros x []. }
    apply (level_loop_nextLevel _ _ _ seen) in El;
      [| apply incl_refl | intros x []].
    destruct El as [Hincl Hnext].
    assert (Hlog' : never_again (log ++ [fetched st])).
    { apply never_again_snoc; [exact Hlog|].
      intros l x Hl Hx Hfx. destruct (Hold l x Hl Hx) as [_ Hn]. auto. }
    destruct (_ || _); [now injection H as <-|].
    eapply IH; [exact Hlog' | | | exact H].
    + intros l x Hl Hx.
      assert (Hseen : In x seen).
      { apply in_app_iff in Hl. destruct Hl as [Hl | [<- | []]].
        - now destruct (Hold l x Hl Hx).
        - auto. }
      split; [auto|]. intros Hn. now destruct (Hnext x Hn).
    + intros x Hx. now destruct (Hnext x Hx).
Qed.

Lemma depth_loop_requested (levels : nat) : forall fuel cl seen issued log r,
  NoDup seen -> JsSet.size seen <= Z.max 1 (maxPages - 1) ->
  incl cl seen -> incl (concat log) seen ->
  levels_loop fuel levels cl seen issued log = Some r ->
  exists V, NoDup V /\ JsSet.size V <= Z.max 1 (maxPages - 1) /\
            incl (concat (requests r)) V.
Proof.
  induction levels as [|levels IH]; intros fuel cl seen issued log r Hnd Hs Hcl Hlog H;
    simpl in H.
  - injection H as <-. exists seen. auto.
  - destruct (loop fuel cl 0 _) as [st|] eqn:El; [|discriminate].
    assert (Hnd' : NoDup (visited st)).
    { eapply (level_loop_visited _ _ _ (@NoDup string)); [| |exact El].
      - intros chunk st0. apply run_chunk_NoDup.
      - exact Hnd. }
    assert (Hbound : exists V, NoDup V /\ JsSet.size V <= Z.max 1 (maxPages - 1) /\
              incl (concat log ++ fetched st) V /\
              (JsSet.size (visited st) < maxPages -> V = visited st)).
    { eapply level_loop_requested; [| | | | |exact El]; cbn [visited fetched];
        trivial; [lia|]. now rewrite app_nil_r. }
    destruct Hbound as (V & HV & HsV & Hreq & Hsame).
    apply (level_loop_nextLevel _ _ _ seen) in El;
      [| apply incl_refl | intros x []].
    destruct El as [_ Hnext].
    assert (Hlog' : concat (log ++ [fetched st]) = concat log ++ fetched st)
      by (rewrite concat_app; cbn; now rewrite app_nil_r).
    destruct (Z.geb_spec (JsSet.size (visited st)) maxPages); cbn [orb] in H.
    + injection H as <-. exists V. cbn [requests]. rewrite Hlog'. auto.
    + destruct (Nat.eqb _ 0).
      * injection H as <-. exists V. cbn [requests]. rewrite Hlog'. auto.
      * eapply IH; [exact Hnd' | lia | | | exact H].
        -- intros x Hx. now destruct (Hnext x Hx).
        -- rewrite Hlog'. rewrite <- (Hsame ltac:(lia)). exact Hreq.
Qed.

(** With a positive chunk size every level ends, so the crawl does. *)
Lemma depth_loop_terminates (levels : nat) : forall cl seen issued log,
  1 <= concurrencyLimit ->
  exists fuel r, levels_loop fuel levels cl seen issued log = Some r.
Proof.
  induction levels as [|levels IH]; intros cl seen issued log Hc.
  - exists 0%nat. simpl. eauto.
  - set (st0 := {| visited := seen; nextLevel := []; req := issued; fetched := [] |}).
    destruct (level_loop_terminates startUrl concurrencyLimit maxPages
                (S (length cl)) cl 0 st0 Hc) as [st El]; [lia..|].
    destruct (IH (nextLevel st) (visited st) (req st) (log ++ [fetched st]) Hc)
      as (fuel & r & Hr).
    destruct ((JsSet.size (visited st) >=? maxPages)
              || Nat.eqb (length (nextLevel st)) 0) eqn:Eb.
    + exists (S (length cl)). cbn [depth_loop]. fold st0. rewrite El, Eb. eauto.
    + exists (Nat.max (S (length cl)) fuel), r. cbn [depth_loop]. fold st0.
      rewrite (level_loop_mono _ _ _ _ _ _ _ _ _ El (Nat.le_max_l _ _)), Eb.
      eapply depth_loop_mono; [exact Hr | apply Nat.le_max_r].
Qed.

End Depth.

(** ** The first level *)

Section FirstLevel.

Context {P : Platform}.
Variables (startUrl : string) (concurrencyLimit maxPages : Z).

Lemma run_chunk_single (url : string) (st : level_state) :
  run_chunk startUrl [url] st =
  {| visited := fst (crawl_url startUrl (req st) (visited st) url);
     nextLevel := nextLevel st ++ snd (crawl_url startUrl (req st) (visited st) url);
     req := (req st + 1)%nat;
     fetched := fetched st ++ [url] |}.
Proof.
  unfold run_chunk. cbn [length seq combine settle].
  rewrite Nat.mod_1_r. cbn [nth_error].
  destruct (crawl_url startUrl (req st) (visited st) url) as [v' found].
  cbn. now rewrite Nat.eqb_refl, app_nil_r.
Qed.

(** The first chunk of the crawl is the seed alone. *)
Lemma first_chunk (st : level_state) :
  1 <= concurrencyLimit ->
  level_step startUrl concurrencyLimit maxPages [startUrl] 0 st =
  let st1 := run_chunk startUrl [startUrl] st in
  if JsSet.size (visited st1) >=? maxPages then inr st1
  else inl (0 + concurrencyLimit, st1).
Proof.
  intros Hc. unfold level_step. cbn [length Z.of_nat Z.ltb Z.compare Pos.of_succ_nat].
  rewrite slice_window by lia.
  destruct (Z.to_nat concurrencyLimit) as [|n] eqn:E; [lia|].
  change (Z.to_nat 0) with 0%nat. cbn [skipn firstn]. now rewrite firstn_nil.
Qed.

(** When the seed's page offers nothing, the crawl is over after it. *)
Lemma crawl_without_links (fuel : nat) (maxDepth : Z) :
  crawl_url startUrl 0 [startUrl] startUrl = ([startUrl], []) ->
  1 <= concurrencyLimit -> 1 <= maxDepth -> (2 <= fuel)%nat ->
  crawlWebsite fuel startUrl maxDepth concurrencyLimit maxPages =
  Some {| result := [startUrl]; requests := [[startUrl]] |}.
Proof.
  intros Hseed Hc Hd Hfuel. unfold crawlWebsite.
  destruct (Z.to_nat maxDepth) as [|levels] eqn:El; [lia|].
  destruct fuel as [|[|fuel]]; [lia | lia |].
  cbn [depth_loop level_loop]. change (JsSet.add [] startUrl) with [startUrl].
  rewrite first_chunk by assumption. cbv zeta.
  rewrite run_chunk_single. cbn [visited req]. rewrite Hseed. cbn [fst snd app].
  destruct (JsSet.size [startUrl] >=? maxPages) eqn:Eb.
  - cbn [visited nextLevel fetched]. rewrite Eb. reflexivity.
  - unfold level_step. cbn [length].
    destruct (Z.ltb_spec (0 + concurrencyLimit) (Z.of_nat 1)); [lia|].
    cbn [visited nextLevel fetched length Nat.eqb]. rewrite Eb. reflexivity.
Qed.

Lemma crawl_zero_depth (fuel : nat) (maxDepth : Z) :
  maxDepth <= 0 ->
  crawlWebsite fuel startUrl maxDepth concurrencyLimit maxPages =
  Some {| result := [startUrl]; requests := [] |}.
Proof.
  intros Hd. unfold crawlWebsite.
  replace (Z.to_nat maxDepth) with 0%nat by lia. reflexivity.
Qed.

(** With a page budget of one or less the crawl is over after the seed's
    chunk, whatever that chunk added to [visited]. *)
Lemma crawl_budget_one (fuel : nat) (maxDepth : Z) (r : crawl_result) :
  1 <= concurrencyLimit -> 1 <= maxDepth -> maxPages <= 1 ->
  crawlWebsite fuel startUrl maxDepth concurrencyLimit maxPages = Some r ->
  r = {| result := fst (crawl_url startUrl 0 [startUrl] startUrl);
         requests := [[startUrl]] |}.
Proof.
  intros Hc Hd Hp. unfold crawlWebsite.
  destruct (Z.to_nat maxDepth) as [|levels] eqn:El; [lia|].
  destruct fuel as [|fuel]; [discriminate|].
  cbn [depth_loop level_loop]. change (JsSet.add [] startUrl) with [startUrl].
  rewrite first_chunk by assumption. cbv zeta.
  rewrite run_chunk_single. cbn [visited req fetched nextLevel app].
  pose proof (crawl_url_length startUrl 0 [startUrl] startUrl) as Hlen.
  cbn [length] in Hlen.
  destruct (Z.geb_spec (JsSet.size (fst (crawl_url startUrl 0 [startUrl] startUrl)))
              maxPages) as [Hge | Hlt]; [|unfold JsSet.size in Hlt; lia].
  cbn [visited fetched]. apply Z.geb_le in Hge. rewrite Hge. cbn [orb].
  now intros [= <-].
Qed.

End FirstLevel.

Section Exhaustive.

Context {P : Platform}.
Variables (startUrl : string) (concurrencyLimit maxPages : Z).

(** Every member of [visited] after some handlers was there before them
    or is in what one of them kept. *)
Lemma order_kept (acc : JsSet.t * list (nat * list string))
    (order : list (nat * string)) (x : string) :
  In x (fst (fold_left (settle_one startUrl) order acc)) ->
  In x (fst acc) \/
  exists prefix k u suffix,
    order = prefix ++ (k, u) :: suffix /\
    In x (fresh (fst (fold_left (settle_one startUrl) prefix acc))
                (candidates startUrl k u)).
Proof.
  induction order as [|[k u] order IH] using rev_ind; [now left|].
  rewrite fold_left_app. cbn [fold_left].
  rewrite settle_one_fst, crawl_url_spec. cbn [fst snd].
  rewrite JsSetFacts.add_all_In. intros [H | H].
  - destruct (IH H) as [H0 | (prefix & k' & u' & suffix & -> & Hx)]; [now left | right].
    exists prefix, k', u', (suffix ++ [(k, u)]). split; [|exact Hx].
    now rewrite <- app_assoc.
  - right. exists order, k, u, []. auto.
Qed.

(** What a chunk adds to [visited] it appends to [nextLevel]. *)
Lemma run_chunk_queued (chunk : list string) (st : level_state) (x : string) :
  In x (visited (run_chunk startUrl chunk st)) ->
  In x (visited st) \/ In x (nextLevel (run_chunk startUrl chunk st)).
Proof.
  destruct (run_chunk_order startUrl chunk st) as (order & Hp & -> & ->).
  intros H. apply order_kept in H. cbn [fst] in H.
  destruct H as [H | (prefix & k & u & suffix & Ho & Hx)]; [now left | right].
  apply in_or_app. right. apply in_concat.
  set (promises := combine (seq (req st) (length chunk)) chunk) in *.
  assert (Hkeys : NoDup (map fst order)).
  { eapply Permutation_NoDup; [apply Permutation_map, Permutation_sym, Hp|].
    unfold promises. rewrite promises_keys. apply seq_NoDup. }
  rewrite Ho in Hkeys |- *. rewrite map_app in Hkeys. cbn [map fst] in Hkeys.
  pose proof (NoDup_remove_2 _ _ _ Hkeys) as Hnot. rewrite in_app_iff in Hnot.
  eexists. split.
  - apply in_map_iff. exists (k, u). split; [reflexivity|].
    apply (Permutation_in _ Hp). rewrite Ho. apply in_or_app. right. now left.
  - cbn [fst]. rewrite order_value by tauto. exact Hx.
Qed.

Lemma level_loop_queued (seen : JsSet.t) (fuel : nat) : forall cl i st st',
  (forall x, In x (visited st) -> In x seen \/ In x (nextLevel st)) ->
  level_loop startUrl concurrencyLimit maxPages fuel cl i st = Some st' ->
  forall x, In x (visited st') -> In x seen \/ In x (nextLevel st').
Proof.
  induction fuel as [|fuel IH]; intros cl i st st' Hinv H; [discriminate|].
  simpl in H. unfold level_step in H.
  assert (Hchunk : forall x,
    In x (visited (run_chunk startUrl (slice cl i (i + concurrencyLimit)) st)) ->
    In x seen \/
    In x (nextLevel (run_chunk startUrl (slice cl i (i + concurrencyLimit)) st))).
  { intros x Hx. apply run_chunk_queued in Hx. destruct Hx as [Hx | Hx]; [|now right].
    destruct (Hinv x Hx) as [Hs | Hn]; [now left | right].
    destruct (run_chunk_order startUrl (slice cl i (i + concurrencyLimit)) st)
      as (order & _ & _ & ->).
    apply in_or_app. now left. }
  destruct (i <? Z.of_nat (length cl)).
  - destruct (JsSet.size _ >=? maxPages).
    + now injection H as <-.
    + eapply IH; eassumption.
  - now injection H as <-.
Qed.

(** When neither limit ends the crawl, all that is in [visited] has been
    requested. *)
Lemma depth_loop_exhaustive (depth : nat) (levels : nat) :
  1 <= concurrencyLimit ->
  forall fuel cl seen issued log r,
  (length log + levels = depth)%nat ->
  (forall x, In x seen -> In x (concat log) \/ In x cl) ->
  depth_loop startUrl concurrencyLimit maxPages fuel levels cl seen issued log = Some r ->
  JsSet.size (result r) < maxPages -> (length (requests r) < depth)%nat ->
  incl (result r) (concat (requests r)).
Proof.
  intros Hc. induction levels as [|levels IH];
    intros fuel cl seen issued log r Hdepth Hinv H Hsize Hlen; simpl in H.
  - injection H as <-. cbn [requests] in Hlen. lia.
  - destruct (level_loop _ _ _ fuel cl 0 _) as [st|] eqn:El; [|discriminate].
    assert (Hlog : concat (log ++ [fetched st]) = concat log ++ fetched st)
      by (rewrite concat_app; cbn; now rewrite app_nil_r).
    assert (Hq : forall x, In x (visited st) -> In x seen \/ In x (nextLevel st)).
    { eapply level_loop_queued; [|exact El]. cbn [visited]. intros x Hx. now left. }
    destruct (Z.geb_spec (JsSet.size (visited st)) maxPages) as [Hge | Hlt];
      cbn [orb] in H.
    + injection H as <-. cbn [result] in Hsize. lia.
    + apply level_loop_fetched in El; [|lia..]. destruct El as [_ Hall].
      specialize (Hall Hlt). cbn [fetched app skipn] in Hall.
      change (Z.to_nat 0) with 0%nat in Hall. cbn [skipn] in Hall.
      assert (Hinv' : forall x, In x (visited st) ->
                In x (concat (log ++ [fetched st])) \/ In x (nextLevel st)).
      { intros x Hx. rewrite Hlog, Hall, in_app_iff.
        destruct (Hq x Hx) as [Hs | Hn]; [|now right].
        destruct (Hinv x Hs); auto. }
      destruct (Nat.eqb_spec (length (nextLevel st)) 0) as [He | Hne].
      * injection H as <-. cbn [result requests]. intros x Hx.
        destruct (Hinv' x Hx) as [Hl | Hn]; [exact Hl|].
        destruct (nextLevel st); [destruct Hn | discriminate He].
      * eapply IH; [| exact Hinv' | exact H | exact Hsize | exact Hlen].
        rewrite length_app. simpl. lia.
Qed.

End Exhaustive.

(** ** The order in which a chunk settles *)

Section Arrival.

Context {P : Platform}.
Variable startUrl : string.

Lemma settle_completion_order (n : nat) : forall step pending v s,
  length pending = n ->
  Permutation (completion_order n step pending) pending /\
  settle startUrl n step pending v s =
  fold_left (settle_one startUrl) (completion_order n step pending) (v, s).
Proof.
  induction n as [|n IH]; intros step pending v s Hlen.
  - destruct pending; [|discriminate]. split; [constructor | reflexivity].
  - cbn [settle completion_order].
    assert (Hj : (Nat.modulo (completion step) (length pending) < length pending)%nat)
      by (apply Nat.mod_upper_bound; lia).
    destruct (nth_error pending _) as [[k url]|] eqn:En;
      [| apply nth_error_None in En; lia].
    pose proof (settled_out_perm _ _ _ En) as Hperm.
    set (rest := firstn _ pending ++ skipn _ pending) in *.
    assert (Hrest : length rest = n).
    { apply Permutation_length in Hperm. simpl in Hperm. lia. }
    destruct (crawl_url startUrl k v url) as [v' found] eqn:Ec.
    destruct (IH (S step) rest v' ((k, found) :: s) Hrest) as (Ho & Hs).
    split.
    + now rewrite Ho.
    + rewrite Hs. cbn [fold_left].
      assert (settle_one startUrl (v, s) (k, url) = (v', (k, found) :: s)) as ->
        by (unfold settle_one; cbn [fst snd]; now rewrite Ec).
      reflexivity.
Qed.

(** A chunk is its handlers run in the order of arrival; [Promise.all]
    then lists their values in the order of the chunk. *)
Lemma run_chunk_arrival (chunk : list string) (st : level_state) :
  Permutation (arrival (req st) chunk) (promises (req st) chunk) /\
  visited (run_chunk startUrl chunk st)
    = visited_after startUrl (arrival (req st) chunk) (visited st) /\
  nextLevel (run_chunk startUrl chunk st) =
    nextLevel st ++
    concat (map (fun p =>
                   value_of (fst p)
                     (snd (fold_left (settle_one startUrl) (arrival (req st) chunk)
                                     (visited st, []))))
                (promises (req st) chunk)).
Proof.
  unfold run_chunk, arrival, visited_after, promises.
  destruct (settle_completion_order _ (req st)
              (combine (seq (req st) (length chunk)) chunk)
              (visited st) [] eq_refl) as (Hp & Hs).
  split; [exact Hp|]. rewrite Hs.
  destruct (fold_left _ _ _) as [v' settled]. simpl. auto.
Qed.

Lemma arrival_keys (chunk : list string) (issued : nat) :
  NoDup (map fst (arrival issued chunk)).
Proof.
  destruct (settle_completion_order (length (promises issued chunk)) issued
              (promises issued chunk) [] [] eq_refl) as [Hp _].
  eapply Permutation_NoDup; [apply Permutation_map, Permutation_sym, Hp|].
  unfold promises. rewrite promises_keys. apply seq_NoDup.
Qed.

Lemma visited_after_In (earlier : list (nat * string)) (seen : JsSet.t) (x : string) :
  In x (visited_after startUrl earlier seen) <->
  In x seen \/
  exists p, In p earlier /\ In x (candidates startUrl (fst p) (snd p)).
Proof.
  unfold visited_after. now rewrite order_In.
Qed.

(** The value of the promise of a request: the candidates of its page
    that [visited] did not hold when the requests that arrived earlier had
    been handled. *)
Lemma arrival_value (chunk : list string) (st : level_state)
    (earlier later : list (nat * string)) (k : nat) (u : string) :
  arrival (req st) chunk = earlier ++ (k, u) :: later ->
  value_of k (snd (fold_left (settle_one startUrl) (arrival (req st) chunk)
                             (visited st, [])))
  = fresh (visited_after startUrl earlier (visited st)) (candidates startUrl k u).
Proof.
  intros Ho. pose proof (arrival_keys chunk (req st)) as Hkeys.
  rewrite Ho in Hkeys |- *. rewrite map_app in Hkeys. cbn [map fst] in Hkeys.
  pose proof (NoDup_remove_2 _ _ _ Hkeys) as Hnot. rewrite in_app_iff in Hnot.
  unfold visited_after. apply order_value. tauto.
Qed.

(** A link that the page of one request offers, and that [visited] does
    not hold when the handler of that request runs, is appended to
    [nextLevel] as often as that page names it, whatever the other pages
    of the chunk offer. *)
Lemma run_chunk_credit (chunk : list string) (st : level_state)
    (earlier later : list (nat * string)) (k : nat) (u L : string) :
  arrival (req st) chunk = earlier ++ (k, u) :: later ->
  ~ In L (visited_after startUrl earlier (visited st)) ->
  In L (candidates startUrl k u) ->
  count_occ string_dec (nextLevel (run_chunk startUrl chunk st)) L =
  (count_occ string_dec (nextLevel st) L
   + count_occ string_dec (candidates startUrl k u) L)%nat.
Proof.
  intros Ho Hfresh Hoffer.
  destruct (run_chunk_arrival chunk st) as (Hp & _ & ->).
  rewrite count_occ_app. f_equal.
  pose proof (arrival_keys chunk (req st)) as Hkeys.
  set (order := arrival (req st) chunk) in *.
  set (settled := snd (fold_left (settle_one startUrl) order (visited st, []))).
  assert (Hmine : value_of k settled
                  = fresh (visited_after startUrl earlier (visited st))
                          (candidates startUrl k u))
    by (apply (arrival_value chunk st earlier later); exact Ho).
  assert (Hothers : forall k' u', In (k', u') order -> k' <> k ->
                                  ~ In L (value_of k' settled)).
  { intros k' u' Hin Hne. rewrite Ho in Hin. apply in_app_iff in Hin.
    destruct Hin as [Hin | [Heq | Hin]]; [| congruence |].
    - destruct (in_split _ _ Hin) as (l1 & l2 & He).
      assert (Ho' : order = l1 ++ (k', u') :: (l2 ++ (k, u) :: later))
        by (rewrite Ho, He, <- app_assoc; reflexivity).
      unfold settled, order. rewrite (arrival_value chunk st _ _ _ _ Ho'), fresh_In.
      intros [Hc _]. apply Hfresh. apply visited_after_In. right.
      exists (k', u'). split; [rewrite He; apply in_or_app; right; now left | exact Hc].
    - destruct (in_split _ _ Hin) as (l1 & l2 & He).
      assert (Ho' : order = (earlier ++ (k, u) :: l1) ++ (k', u') :: l2)
        by (rewrite Ho, He, <- app_assoc; reflexivity).
      unfold settled, order. rewrite (arrival_value chunk st _ _ _ _ Ho'), fresh_In.
      intros [_ Hn]. apply Hn. apply visited_after_In. right.
      exists (k, u). split; [apply in_or_app; right; now left | exact Hoffer]. }
  assert (Hhere : In (k, u) (promises (req st) chunk)).
  { apply (Permutation_in _ Hp). fold order. rewrite Ho. apply in_or_app. right. now left. }
  destruct (in_split _ _ Hhere) as (a1 & a2 & Ha).
  assert (Hnd : NoDup (map fst (promises (req st) chunk)))
    by (unfold promises; rewrite promises_keys; apply seq_NoDup).
  assert (Hall : forall p, In p (promises (req st) chunk) -> In p order)
    by (intros p Hin; apply (Permutation_in _ (Permutation_sym Hp)), Hin).
  rewrite Ha in Hnd, Hall |- *. rewrite map_app in Hnd. cbn [map fst] in Hnd.
  pose proof (NoDup_remove_2 _ _ _ Hnd) as Hnot. rewrite in_app_iff in Hnot.
  rewrite map_app, concat_app. cbn [map concat fst]. rewrite !count_occ_app.
  fold settled. rewrite !count_occ_concat_none.
  - cbn [Nat.add]. rewrite Nat.add_0_r, Hmine. now apply fresh_count.
  - intros [k' u'] Hin. cbn [fst]. apply (Hothers k' u').
    + apply Hall, in_or_app. right. now right.
    + intros ->. apply Hnot. right. apply in_map_iff. exists (k, u'). auto.
  - intros [k' u'] Hin. cbn [fst]. apply (Hothers k' u').
    + apply Hall, in_or_app. now left.
    + intros ->. apply Hnot. left. apply in_map_iff. exists (k, u'). auto.
Qed.

End Arrival.

(** ** A request that fails, and a page without anchors *)

Section EmptyPages.

Context {P : Platform}.
Variables (startUrl : string) (concurrencyLimit maxPages : Z).

Local Abbreviation Q := (failures_as_empty_pages P).

Lemma crawl_url_empty_page (k : nat) (v : JsSet.t) (url : string) :
  @crawl_url Q startUrl k v url = crawl_url startUrl k v url.
Proof.
  unfold crawl_url, on_response. cbn [axios_get failures_as_empty_pages].
  destruct (axios_get k url) as [data|]; reflexivity.
Qed.

Lemma settle_empty_page (n : nat) : forall step pending v s,
  @settle Q startUrl n step pending v s = settle startUrl n step pending v s.
Proof.
  induction n as [|n IH]; intros step pending v s; [reflexivity|].
  cbn [settle]. change (@completion Q) with (@completion P).
  destruct (nth_error pending _) as [[k url]|]; [|reflexivity].
  rewrite crawl_url_empty_page.
  destruct (crawl_url startUrl k v url) as [v' found]. apply IH.
Qed.

Lemma run_chunk_empty_page (chunk : list string) (st : level_state) :
  @run_chunk Q startUrl chunk st = run_chunk startUrl chunk st.
Proof.
  unfold run_chunk. now rewrite settle_empty_page.
Qed.

Lemma level_loop_empty_page (fuel : nat) : forall cl i st,
  @level_loop Q startUrl concurrencyLimit maxPages fuel cl i st =
  level_loop startUrl concurrencyLimit maxPages fuel cl i st.
Proof.
  induction fuel as [|fuel IH]; intros cl i st; [reflexivity|].
  cbn [level_loop]. unfold level_step. rewrite run_chunk_empty_page.
  destruct (i <? Z.of_nat (length cl)); [|reflexivity].
  destruct (JsSet.size _ >=? maxPages); [reflexivity | apply IH].
Qed.

Lemma depth_loop_empty_page (levels : nat) : forall fuel cl seen issued log,
  @depth_loop Q startUrl concurrencyLimit maxPages fuel levels cl seen issued log =
  depth_loop startUrl concurrencyLimit maxPages fuel levels cl seen issued log.
Proof.
  induction levels as [|levels IH]; intros fuel cl seen issued log; [reflexivity|].
  cbn [depth_loop]. rewrite level_loop_empty_page.
  destruct (level_loop _ _ _ fuel cl 0 _) as [st|]; [|reflexivity].
  destruct (_ || _); [reflexivity | apply IH].
Qed.

End EmptyPages.

(** * The claims of the specification *)

Section Claims.

Context {P : Platform}.

Lemma newLinks_count (startUrl : string) (v : JsSet.t) (L : string) :
  sameDomain startUrl L = Some true -> ~ In L v ->
  forall ls nl, newLinks startUrl v ls = Some nl ->
  count_occ string_dec nl L = count_occ string_dec ls L.
Proof.
  intros Hs Hv. apply JsSetFacts.has_false in Hv.
  induction ls as [|l ls IH]; intros nl H; simpl in H.
  - now injection H as <-.
  - destruct (sameDomain startUrl l) as [same|] eqn:Es; [|discriminate].
    destruct (newLinks startUrl v ls) as [kept|]; [|discriminate].
    injection H as <-. specialize (IH kept eq_refl).
    destruct (string_dec l L) as [-> | Hne].
    + rewrite Hs in Es. injection Es as <-. rewrite Hv. cbn [andb negb].
      rewrite !count_occ_cons_eq by reflexivity. now rewrite IH.
    + rewrite (count_occ_cons_neq _ _ Hne).
      destruct (same && _); [rewrite (count_occ_cons_neq _ _ Hne)|]; exact IH.
Qed.

Lemma crawl_terminates (startUrl : string) (maxDepth concurrencyLimit maxPages : Z) :
  1 <= concurrencyLimit ->
  exists fuel r, forall fuel', (fuel <= fuel')%nat ->
    crawlWebsite fuel' startUrl maxDepth concurrencyLimit maxPages = Some r.
Proof.
  intros Hc. unfold crawlWebsite.
  destruct (depth_loop_terminates startUrl concurrencyLimit maxPages
              (Z.to_nat maxDepth) [startUrl] (JsSet.add [] startUrl) 0%nat [] Hc)
    as (fuel & r & H).
  exists fuel, r. intros fuel' Hle. eapply depth_loop_mono; eassumption.
Qed.

Lemma crawl_visited (I : JsSet.t -> Prop) (startUrl : string)
    (maxDepth concurrencyLimit maxPages : Z) (fuel : nat) (r : crawl_result) :
  (forall chunk st, I (visited st) -> I (visited (run_chunk startUrl chunk st))) ->
  I [startUrl] ->
  crawlWebsite fuel startUrl maxDepth concurrencyLimit maxPages = Some r ->
  I (result r).
Proof.
  intros Hchunk H0 H. eapply depth_loop_visited; [exact Hchunk | | exact H].
  exact H0.
Qed.

(** C1 (amended).  The page budget is a soft cap: [visited.size >= maxPages]
    is looked at after a chunk has been processed (lines 96 and 100), never
    before a link is added.  With [concurrencyLimit >= 1] and [maxPages >= 1],
    and when no page has more than [K] anchors, the returned set has at
    most [max 1 (maxPages - 1) + concurrencyLimit * K] elements.  What
    the budget bounds is the pages crawled: the URLs requested are among at
    most [max 1 (maxPages - 1)] different ones.  When [maxPages = 1] and
    [maxDepth >= 1] the seed alone is requested, and the returned set is
    the seed together with the same-host links of the seed's page. *)
Theorem soft_page_budget (fuel : nat) (startUrl : string)
    (maxDepth concurrencyLimit maxPages : Z) (K : nat) (r : crawl_result) :
  1 <= concurrencyLimit -> 1 <= maxPages ->
  (forall k u data, axios_get k u = Some data ->
                    (length (anchor_hrefs data) <= K)%nat) ->
  crawlWebsite fuel startUrl maxDepth concurrencyLimit maxPages = Some r ->
  JsSet.size (result r)
    <= Z.max 1 (maxPages - 1) + concurrencyLimit * Z.of_nat K /\
  (exists V, NoDup V /\ JsSet.size V <= Z.max 1 (maxPages - 1) /\
             incl (concat (requests r)) V) /\
  (maxPages = 1 -> 1 <= maxDepth ->
   result r = JsSet.add_all [startUrl]
                (fresh [startUrl] (candidates startUrl 0 startUrl)) /\
   requests r = [[startUrl]]).
Proof.
  intros Hc Hp HK H. split; [|split].
  - eapply depth_loop_size; [| exact Hc | | exact H].
    + intros k u. now apply candidates_length.
    + cbn. lia.
  - eapply depth_loop_requested; [| | | | exact H].
    + repeat constructor. intros [].
    + cbn. lia.
    + apply incl_refl.
    + intros x [].
  - intros -> Hd.
    rewrite (crawl_budget_one _ _ _ _ _ _ Hc Hd (Z.le_refl 1) H).
    cbn [result requests]. now rewrite crawl_url_spec.
Qed.


(** C3 (amended).  An unparsable seed is not reported: [new URL(startUrl)]
    is evaluated inside the response handler only (line 81), where the
    [catch] of line 87 absorbs the exception.  For every such seed and
    [concurrencyLimit >= 1] the crawl returns normally, the returned set is
    the seed alone, and at most the seed has been requested. *)
Theorem invalid_seed_is_not_reported (fuel : nat) (startUrl : string)
    (maxDepth concurrencyLimit maxPages : Z) :
  URL_hostname startUrl = None -> 1 <= concurrencyLimit -> (2 <= fuel)%nat ->
  crawlWebsite fuel startUrl maxDepth concurrencyLimit maxPages =
  Some {| result := [startUrl];
          requests := if 1 <=? maxDepth then [[startUrl]] else [] |}.
Proof.
  intros Hs Hc Hfuel. destruct (Z.leb_spec 1 maxDepth).
  - apply crawl_without_links; trivial.
    rewrite crawl_url_spec, candidates_invalid_seed by assumption. reflexivity.
  - apply crawl_zero_depth. lia.
Qed.


(** C5.  A crawl that returns has gone through at most [maxDepth] levels
    of requests; with [maxDepth = 0] it returns the seed alone and has sent
    no request at all. *)
Theorem depth_limit :
  (forall fuel startUrl maxDepth concurrencyLimit maxPages r,
     0 <= maxDepth ->
     crawlWebsite fuel startUrl maxDepth concurrencyLimit maxPages = Some r ->
     Z.of_nat (length (requests r)) <= maxDepth) /\
  (forall fuel startUrl concurrencyLimit maxPages,
     crawlWebsite fuel startUrl 0 concurrencyLimit maxPages =
     Some {| result := [startUrl]; requests := [] |}).
Proof.
  split.
  - intros fuel startUrl maxDepth c mp r Hd H.
    apply depth_loop_levels in H. simpl in H. lia.
  - intros. now apply crawl_zero_depth.
Qed.

(** C6.  Every URL of the returned set other than the seed has the
    hostname of the seed: the two [hostname] strings are equal (the [===]
    of line 81 compares nothing else, neither scheme nor port), so a link
    to another host is never in the set. *)
Theorem visited_same_host (fuel : nat) (startUrl : string)
    (maxDepth concurrencyLimit maxPages : Z) (r : crawl_result) (x : string) :
  crawlWebsite fuel startUrl maxDepth concurrencyLimit maxPages = Some r ->
  In x (result r) ->
  x = startUrl \/
  exists h, URL_hostname x = Some h /\ URL_hostname startUrl = Some h.
Proof.
  intros H. revert x.
  eapply (crawl_visited
            (fun v => forall x, In x v -> x = startUrl \/ same_host startUrl x));
    [ | | exact H].
  - intros chunk st Hv x Hx. apply run_chunk_In in Hx.
    destruct Hx as [Hx | (j & u & _ & Hx)]; [auto|].
    right. eapply candidates_same_host, Hx.
  - intros x [<- | []]. now left.
Qed.

(** C8.  For every seed, limits with [concurrencyLimit >= 1] and every
    answer of the network the crawl returns: some amount of fuel is enough,
    and more fuel gives the same result. *)
Theorem crawl_always_returns (startUrl : string)
    (maxDepth concurrencyLimit maxPages : Z) :
  0 <= maxDepth -> 1 <= concurrencyLimit -> 1 <= maxPages ->
  exists fuel r, forall fuel', (fuel <= fuel')%nat ->
    crawlWebsite fuel' startUrl maxDepth concurrencyLimit maxPages = Some r.
Proof.
  intros _ Hc _. now apply crawl_terminates.
Qed.


(** C10.  With [concurrencyLimit = 0] the loop of line 65 makes no
    progress while the level is not empty and [visited] is below
    [maxPages]: the chunk is empty, nothing changes, and the next turn
    starts from the same index and the same state; no number of turns ends
    it, and neither does the crawl when [maxDepth >= 1] and [maxPages >= 2]. *)
Theorem zero_concurrency_never_returns :
  (forall startUrl maxPages currentLevel i st,
     i < Z.of_nat (length currentLevel) -> JsSet.size (visited st) < maxPages ->
     level_step startUrl 0 maxPages currentLevel i st = inl (i, st) /\
     forall fuel, level_loop startUrl 0 maxPages fuel currentLevel i st = None) /\
  (forall startUrl maxDepth maxPages,
     1 <= maxDepth -> 2 <= maxPages ->
     forall fuel, crawlWebsite fuel startUrl maxDepth 0 maxPages = None).
Proof.
  assert (Hstep : forall startUrl maxPages currentLevel i st,
     i < Z.of_nat (length currentLevel) -> JsSet.size (visited st) < maxPages ->
     level_step startUrl 0 maxPages currentLevel i st = inl (i, st)).
  { intros startUrl mp cl i st Hi Hs. unfold level_step.
    destruct (Z.ltb_spec i (Z.of_nat (length cl))); [|lia].
    rewrite Z.add_0_r, slice_empty, run_chunk_nil.
    destruct (Z.geb_spec (JsSet.size (visited st)) mp); [lia | reflexivity]. }
  assert (Hloop : forall startUrl maxPages currentLevel i st,
     i < Z.of_nat (length currentLevel) -> JsSet.size (visited st) < maxPages ->
     forall fuel, level_loop startUrl 0 maxPages fuel currentLevel i st = None).
  { intros startUrl mp cl i st Hi Hs fuel.
    induction fuel as [|fuel IH]; [reflexivity|].
    cbn [level_loop]. now rewrite Hstep. }
  split.
  - intros. split; [now apply Hstep | now apply Hloop].
  - intros startUrl maxDepth mp Hd Hp fuel. unfold crawlWebsite.
    destruct (Z.to_nat maxDepth) as [|levels] eqn:E; [lia|].
    cbn [depth_loop]. rewrite Hloop; [reflexivity | cbn; lia | cbn; lia].
Qed.

End Claims.

(** * The crawler on the small web *)

Module Examples.

Import Fixture.

(** C1, counterexample.  The home page links to [/about]; with
    [maxPages = 1] the link is added before the budget is looked at, and the
    returned set has two elements. *)
Lemma page_budget_overshoot :
  @crawlWebsite (web two_links in_order) 5 home 2 10 1 =
    Some {| result := [home; about]; requests := [[home]] |} /\
  ~ JsSet.size [home; about] <= 1 /\
  [home; about] <> [home].
Proof.
  split; [vm_compute; reflexivity|]. split.
  - unfold JsSet.size. simpl. lia.
  - intros H. discriminate H.
Qed.

Lemma soft_page_budget_witness :
  let W := web two_links in_order in
  let r := {| result := [home; about]; requests := [[home]] |} in
  JsSet.size (result r) <= Z.max 1 (1 - 1) + 10 * Z.of_nat 2 /\
  (exists V, NoDup V /\ JsSet.size V <= Z.max 1 (1 - 1) /\
             incl (concat (requests r)) V) /\
  (1 = 1 -> 1 <= 2 ->
   result r = JsSet.add_all [home] (fresh [home] (@candidates W home 0 home)) /\
   requests r = [[home]]).
Proof.
  intros W r.
  apply (@soft_page_budget W 5 home 2 10 1 2 r); [lia | lia | | vm_compute; reflexivity].
  intros k u data H. change (page two_links u = Some data) in H.
  cbn [page two_links] in H.
  destruct (String.eqb home u); [|discriminate H].
  injection H as <-. cbn. lia.
Defined.



(** C3, counterexample.  The seed does not parse, and the crawl returns a
    set all the same. *)
Lemma invalid_seed_returns_normally :
  @URL_hostname (web two_links in_order) unparsable = None /\
  @crawlWebsite (web two_links in_order) 5 unparsable 2 10 100 =
    Some {| result := [unparsable]; requests := [[unparsable]] |}.
Proof.
  split; vm_compute; reflexivity.
Qed.

Lemma invalid_seed_is_not_reported_witness :
  @crawlWebsite (web two_links in_order) 5 unparsable 2 10 100 =
    Some {| result := [unparsable];
            requests := if 1 <=? 2 then [[unparsable]] else [] |}.
Proof.
  apply (@invalid_seed_is_not_reported (web two_links in_order) 5 unparsable 2 10 100);
    [reflexivity | lia | lia].
Defined.


Lemma depth_limit_witness :
  let r := {| result := [home; about]; requests := [[home]] |} in
  Z.of_nat (length (requests r)) <= 1.
Proof.
  intros r.
  apply (proj1 (@depth_limit (web two_links in_order)) 5%nat home 1 10 100 r);
    [lia | vm_compute; reflexivity].
Defined.

(** The scenario of the spec: from the seed [http://a.com], whose page
    links to [/about] and to [http://b.com/x], a crawl of depth one returns
    the seed and [http://a.com/about]. *)
Example spec_scenario :
  @crawlWebsite (web two_links in_order) 5 home 1 10 100 =
  Some {| result := [home; about]; requests := [[home]] |}.
Proof. vm_compute. reflexivity. Qed.

(** The host is all that is compared: the [https] page of the seed's host
    is in the returned set, the pages of another host and of a subdomain
    are not. *)
Lemma visited_same_host_witness :
  let W := web other_hosts in_order in
  let r := {| result := [home; secure_s]; requests := [[home]; [secure_s]] |} in
  @crawlWebsite W 5 home 2 10 100 = Some r /\
  (secure_s = home \/
   exists h, @URL_hostname W secure_s = Some h /\ @URL_hostname W home = Some h) /\
  ~ In elsewhere (result r) /\ ~ In subdomain (result r).
Proof.
  intros W r.
  assert (Hr : @crawlWebsite W 5 home 2 10 100 = Some r) by (vm_compute; reflexivity).
  split; [exact Hr|]. split.
  - apply (@visited_same_host W 5 home 2 10 100 r secure_s Hr). simpl. auto.
  - split; intros [H | [H | []]]; discriminate H.
Defined.

Lemma crawl_always_returns_witness :
  exists fuel r, forall fuel', (fuel <= fuel')%nat ->
    @crawlWebsite (web two_links in_order) fuel' home 2 10 100 = Some r.
Proof.
  apply (@crawl_always_returns (web two_links in_order) home 2 10 100); lia.
Defined.



Lemma zero_concurrency_never_returns_witness :
  let W := web two_links in_order in
  let st := {| visited := [home]; nextLevel := []; req := 0; fetched := [] |} in
  (@level_step W home 0 100 [home] 0 st = inl (0, st) /\
   forall fuel, @level_loop W home 0 100 fuel [home] 0 st = None) /\
  forall fuel, @crawlWebsite W fuel home 1 0 100 = None.
Proof.
  intros W st.
  destruct (@zero_concurrency_never_returns W) as [Hlevel Hcrawl].
  split.
  - apply Hlevel; [simpl; lia | vm_compute; reflexivity].
  - apply Hcrawl; lia.
Defined.

End Examples.

(** * Naming pages *)

(** ** The passes of [slugify] *)

Module SlugFacts.

Import Slug.

Ltac each_char c := destruct c as [[] [] [] [] [] [] [] []]; vm_compute; congruence.

Lemma slug_char_kept (c : ascii) : isSlugChar c = true -> isWord c || isDash c = true.
Proof. each_char c. Qed.

Lemma slug_char_not_space (c : ascii) : isSlugChar c = true -> isSpace c = false.
Proof. each_char c. Qed.

Lemma slug_char_not_upper (c : ascii) : isSlugChar c = true -> isUpper c = false.
Proof. each_char c. Qed.

Lemma dash_not_space : isSpace dash = false.
Proof. reflexivity. Qed.

(** A character that [toLowerCase] gives and [removeNonWord] keeps. *)
Lemma lowered_and_kept (c : ascii) :
  isWord (if isUpper c then ascii_of_nat (code c + 32) else c)
  || isDash (if isUpper c then ascii_of_nat (code c + 32) else c) = true ->
  isSlugChar (if isUpper c then ascii_of_nat (code c + 32) else c) = true.
Proof. each_char c. Qed.

Lemma lowered_dash : lowered dash.
Proof. exists dash. reflexivity. Qed.

Lemma trimStart_In (l : list ascii) (c : ascii) : In c (trimStart l) -> In c l.
Proof.
  induction l as [|a l IH]; simpl; [trivial|].
  destruct (isSpace a); [intros H; right; auto | trivial].
Qed.

Lemma trim_In (l : list ascii) (c : ascii) : In c (trim l) -> In c l.
Proof.
  unfold trim. intros H. apply in_rev, trimStart_In in H.
  apply in_rev in H. now apply trimStart_In.
Qed.

Lemma replaceSpaces_In (l : list ascii) : forall b c,
  In c (replaceSpaces b l) -> c = dash \/ In c l.
Proof.
  induction l as [|a l IH]; intros b c; simpl; [tauto|].
  destruct (isSpace a).
  - destruct b.
    + intros H. destruct (IH _ _ H); auto.
    + intros [<- | H]; [auto|]. destruct (IH _ _ H); auto.
  - intros [<- | H]; [auto|]. destruct (IH _ _ H); auto.
Qed.

Lemma replaceDashes_In (l : list ascii) : forall b c,
  In c (replaceDashes b l) -> In c l.
Proof.
  induction l as [|a l IH]; intros b c; simpl; [tauto|].
  destruct (isDash a).
  - destruct b.
    + intros H. right. eapply IH, H.
    + intros [<- | H]; [auto|]. right. eapply IH, H.
  - intros [<- | H]; [auto|]. right. eapply IH, H.
Qed.

Lemma slugify_chars_slug (text : list ascii) (c : ascii) :
  In c (slugify_chars text) -> isSlugChar c = true.
Proof.
  unfold slugify_chars, removeNonWord. intros H.
  apply replaceDashes_In, filter_In in H. destruct H as [H Hkept].
  assert (Hl : lowered c).
  { apply replaceSpaces_In in H. destruct H as [-> | H]; [apply lowered_dash|].
    apply trim_In in H. unfold toLowerCase in H. apply in_map_iff in H.
    destruct H as (c0 & <- & _). now exists c0. }
  destruct Hl as (c0 & ->). now apply lowered_and_kept.
Qed.

(** After [replaceDashes] a dash is never followed by a dash; and when
    the character before was a dash, the text does not start with one. *)
Lemma replaceDashes_shape (l : list ascii) : forall b,
  (b = true -> forall d r, replaceDashes b l = d :: r -> isDash d = false) /\
  (forall l1 d1 d2 l2, replaceDashes b l = l1 ++ d1 :: d2 :: l2 ->
                       isDash d1 = true -> isDash d2 = false).
Proof.
  induction l as [|a l IH]; intros b; simpl.
  - split; [discriminate|]. intros [|? ?] ? ? ? H; discriminate H.
  - destruct (isDash a) eqn:Ea.
    + destruct b.
      * apply IH.
      * split; [discriminate|]. intros [|x l1] d1 d2 l2 H Hd1; simpl in H.
        -- injection H as _ H. exact (proj1 (IH true) eq_refl _ _ H).
        -- injection H as _ H. exact (proj2 (IH true) _ _ _ _ H Hd1).
    + split.
      * intros _ d r H. injection H as <- _. exact Ea.
      * intros [|x l1] d1 d2 l2 H Hd1; simpl in H.
        -- injection H as -> _. congruence.
        -- injection H as _ H. exact (proj2 (IH false) _ _ _ _ H Hd1).
Qed.

(** *** A text in slug form goes through every pass unchanged *)

Lemma toLowerCase_id (l : list ascii) :
  (forall c, In c l -> isUpper c = false) -> toLowerCase l = l.
Proof.
  unfold toLowerCase. induction l as [|a l IH]; intros H; simpl; [reflexivity|].
  rewrite (H a) by now left. f_equal. apply IH. intros c Hc. apply H. now right.
Qed.

Lemma trimStart_id (l : list ascii) :
  (forall c r, l = c :: r -> isSpace c = false) -> trimStart l = l.
Proof.
  destruct l as [|a l]; intros H; simpl; [reflexivity|].
  now rewrite (H a l eq_refl).
Qed.

Lemma trimStart_head (l : list ascii) (c : ascii) (r : list ascii) :
  trimStart l = c :: r -> isSpace c = false.
Proof.
  induction l as [|a l IH]; simpl; [discriminate|].
  destruct (isSpace a) eqn:E; [exact IH|]. intros H. injection H as <- _. exact E.
Qed.

Lemma trim_id (l : list ascii) :
  (forall c, In c l -> isSpace c = false) -> trim l = l.
Proof.
  intros H. unfold trim.
  rewrite (trimStart_id l) by (intros c r ->; apply H; now left).
  rewrite trimStart_id; [apply rev_involutive|].
  intros c r Hr. apply H, in_rev. rewrite Hr. now left.
Qed.

Lemma replaceSpaces_id (l : list ascii) : forall b,
  (forall c, In c l -> isSpace c = false) -> replaceSpaces b l = l.
Proof.
  induction l as [|a l IH]; intros b H; simpl; [reflexivity|].
  rewrite (H a) by now left. f_equal. apply IH. intros c Hc. apply H. now right.
Qed.

Lemma removeNonWord_id (l : list ascii) :
  (forall c, In c l -> isWord c || isDash c = true) -> removeNonWord l = l.
Proof.
  unfold removeNonWord. induction l as [|a l IH]; intros H; simpl; [reflexivity|].
  rewrite (H a) by now left. f_equal. apply IH. intros c Hc. apply H. now right.
Qed.

Lemma replaceDashes_id (l : list ascii) : forall b,
  (b = true -> forall d r, l = d :: r -> isDash d = false) ->
  (forall l1 d1 d2 l2, l = l1 ++ d1 :: d2 :: l2 ->
                       isDash d1 = true -> isDash d2 = false) ->
  replaceDashes b l = l.
Proof.
  induction l as [|a l IH]; intros b Hhead Hpairs; simpl; [reflexivity|].
  assert (Htail : forall l1 d1 d2 l2, l = l1 ++ d1 :: d2 :: l2 ->
                                      isDash d1 = true -> isDash d2 = false).
  { intros l1 d1 d2 l2 ->. apply (Hpairs (a :: l1) d1 d2 l2). reflexivity. }
  destruct (isDash a) eqn:Ea.
  - destruct b; [rewrite (Hhead eq_refl a l eq_refl) in Ea; discriminate|].
    f_equal. apply IH; [|exact Htail].
    intros _ d r ->. apply (Hpairs [] a d r); trivial.
  - f_equal. apply IH; [discriminate | exact Htail].
Qed.

Lemma slugify_chars_id (l : list ascii) :
  (forall c, In c l -> isSlugChar c = true) ->
  (forall l1 d1 d2 l2, l = l1 ++ d1 :: d2 :: l2 ->
                       isDash d1 = true -> isDash d2 = false) ->
  slugify_chars l = l.
Proof.
  intros Hslug Hpairs. unfold slugify_chars.
  rewrite toLowerCase_id by (intros c Hc; now apply slug_char_not_upper, Hslug).
  rewrite trim_id by (intros c Hc; now apply slug_char_not_space, Hslug).
  rewrite replaceSpaces_id by (intros c Hc; now apply slug_char_not_space, Hslug).
  rewrite removeNonWord_id by (intros c Hc; now apply slug_char_kept, Hslug).
  apply replaceDashes_id; [discriminate | exact Hpairs].
Qed.

(** *** No pass makes the text longer *)

Lemma trimStart_length (l : list ascii) : (length (trimStart l) <= length l)%nat.
Proof.
  induction l as [|a l IH]; simpl; [lia|]. destruct (isSpace a); simpl; lia.
Qed.

Lemma replaceSpaces_length (l : list ascii) : forall b,
  (length (replaceSpaces b l) <= length l)%nat.
Proof.
  induction l as [|a l IH]; intros b; simpl; [lia|].
  pose proof (IH true). pose proof (IH false).
  destruct (isSpace a); [destruct b|]; simpl; lia.
Qed.

Lemma replaceDashes_length (l : list ascii) : forall b,
  (length (replaceDashes b l) <= length l)%nat.
Proof.
  induction l as [|a l IH]; intros b; simpl; [lia|].
  pose proof (IH true). pose proof (IH false).
  destruct (isDash a); [destruct b|]; simpl; lia.
Qed.

Lemma slugify_chars_length (l : list ascii) :
  (length (slugify_chars l) <= length l)%nat.
Proof.
  unfold slugify_chars, trim, removeNonWord, toLowerCase.
  pose proof (replaceDashes_length
    (filter (fun c => isWord c || isDash c)
       (replaceSpaces false (rev (trimStart (rev (trimStart
          (map (fun c => if isUpper c then ascii_of_nat (code c + 32) else c) l)))))))
    false) as H1.
  pose proof (filter_length_le (fun c => isWord c || isDash c)
    (replaceSpaces false (rev (trimStart (rev (trimStart
          (map (fun c => if isUpper c then ascii_of_nat (code c + 32) else c) l)))))))
    as H2.
  pose proof (replaceSpaces_length
    (rev (trimStart (rev (trimStart
          (map (fun c => if isUpper c then ascii_of_nat (code c + 32) else c) l)))))
    false) as H3.
  rewrite length_rev in H3.
  pose proof (trimStart_length (rev (trimStart
          (map (fun c => if isUpper c then ascii_of_nat (code c + 32) else c) l))))
    as H4.
  rewrite length_rev in H4.
  pose proof (trimStart_length
          (map (fun c => if isUpper c then ascii_of_nat (code c + 32) else c) l))
    as H5.
  rewrite length_map in H5. lia.
Qed.

End SlugFacts.

(** ** Paths made of clean segments *)

Module PathFacts.

Import Slug SlugFacts.

Lemma name_char_slug (c : ascii) : isNameChar c = true -> isSlugChar c = true.
Proof. each_char c. Qed.

Lemma name_char_not_dash (c : ascii) : isNameChar c = true -> isDash c = false.
Proof. each_char c. Qed.

Lemma name_char_not_slash (c : ascii) :
  isNameChar c = true -> (code c =? 47)%nat = false.
Proof. each_char c. Qed.

Lemma clean_tail (s : list ascii) (rest : list (list ascii)) :
  clean (s :: rest) -> clean rest.
Proof. intros H x Hx. apply H. now right. Qed.

Lemma separated_In (sep : ascii) (segments : list (list ascii)) (c : ascii) :
  In c (concat (map (cons sep) segments)) ->
  c = sep \/ exists s, In s segments /\ In c s.
Proof.
  induction segments as [|s rest IH]; simpl; [tauto|].
  rewrite in_app_iff. intros [<- | [H | H]]; [auto | right; eauto |].
  destruct (IH H) as [-> | (x & Hx & Hc)]; [auto | right; eauto].
Qed.

Lemma slashesToSpaces_path (segments : list (list ascii)) :
  clean segments ->
  slashesToSpaces (pathOf segments) = concat (map (cons space) segments).
Proof.
  unfold pathOf, slashesToSpaces.
  induction segments as [|s rest IH]; intros H; simpl; [reflexivity|].
  rewrite map_app, IH by (eapply clean_tail, H). f_equal. f_equal.
  destruct (H s (or_introl eq_refl)) as [_ Hs]. clear -Hs.
  induction s as [|c s IHs]; simpl; [reflexivity|].
  rewrite (name_char_not_slash c) by (apply Hs; now left).
  f_equal. apply IHs. intros x Hx. apply Hs. now right.
Qed.

Lemma ends_with_name_char (rest : list (list ascii)) : forall s,
  clean (s :: rest) ->
  exists l c, s ++ concat (map (cons space) rest) = l ++ [c] /\ isNameChar c = true.
Proof.
  induction rest as [|s2 rest IH]; intros s H.
  - destruct (H s (or_introl eq_refl)) as [Hne Hs].
    destruct (exists_last Hne) as (l & c & ->).
    exists l, c. simpl. rewrite app_nil_r. split; [reflexivity|].
    apply Hs, in_or_app. right. now left.
  - destruct (IH s2 (clean_tail _ _ H)) as (l & c & Hl & Hc).
    exists (s ++ space :: l), c. split; [|exact Hc].
    simpl. rewrite Hl, <- app_assoc. reflexivity.
Qed.

Lemma trim_joined (s : list ascii) (rest : list (list ascii)) :
  clean (s :: rest) ->
  trim (concat (map (cons space) (s :: rest))) = s ++ concat (map (cons space) rest).
Proof.
  intros H. unfold trim.
  destruct (ends_with_name_char rest s H) as (l & c & Hl & Hc).
  destruct (H s (or_introl eq_refl)) as [Hne Hs].
  destruct s as [|a s]; [congruence|].
  assert (Ha : isSpace a = false)
    by (apply slug_char_not_space, name_char_slug, Hs; now left).
  cbn [map concat app trimStart]. change (isSpace space) with true. cbn iota.
  rewrite Ha. cbn [app] in Hl. rewrite Hl, rev_app_distr. cbn [rev app trimStart].
  rewrite (slug_char_not_space c) by now apply name_char_slug.
  change (rev (c :: rev l) = l ++ [c]). cbn [rev]. now rewrite rev_involutive.
Qed.

Lemma replaceSpaces_app (s : list ascii) : forall b l,
  (forall c, In c s -> isSpace c = false) ->
  replaceSpaces b (s ++ l) = s ++ replaceSpaces (match s with [] => b | _ => false end) l.
Proof.
  induction s as [|a s IH]; intros b l H; simpl; [reflexivity|].
  rewrite (H a) by now left. f_equal.
  rewrite IH by (intros c Hc; apply H; now right). now destruct s.
Qed.

Lemma replaceDashes_app (s : list ascii) : forall b l,
  (forall c, In c s -> isDash c = false) ->
  replaceDashes b (s ++ l) = s ++ replaceDashes (match s with [] => b | _ => false end) l.
Proof.
  induction s as [|a s IH]; intros b l H; simpl; [reflexivity|].
  rewrite (H a) by now left. f_equal.
  rewrite IH by (intros c Hc; apply H; now right). now destruct s.
Qed.

Lemma replaceSpaces_joined (rest : list (list ascii)) :
  clean rest ->
  replaceSpaces false (concat (map (cons space) rest)) = concat (map (cons dash) rest).
Proof.
  induction rest as [|s rest IH]; intros H; [reflexivity|].
  destruct (H s (or_introl eq_refl)) as [Hne Hs].
  cbn [map concat app replaceSpaces]. change (isSpace space) with true. cbn iota.
  f_equal. rewrite replaceSpaces_app
    by (intros c Hc; now apply slug_char_not_space, name_char_slug, Hs).
  destruct s as [|a s]; [congruence|]. f_equal. apply IH. eapply clean_tail, H.
Qed.

Lemma replaceDashes_joined (rest : list (list ascii)) :
  clean rest ->
  replaceDashes false (concat (map (cons dash) rest)) = concat (map (cons dash) rest).
Proof.
  induction rest as [|s rest IH]; intros H; [reflexivity|].
  destruct (H s (or_introl eq_refl)) as [Hne Hs].
  cbn [map concat app replaceDashes]. change (isDash dash) with true. cbn iota.
  f_equal. rewrite replaceDashes_app
    by (intros c Hc; now apply name_char_not_dash, Hs).
  destruct s as [|a s]; [congruence|]. f_equal. apply IH. eapply clean_tail, H.
Qed.

Lemma slugify_chars_path (s : list ascii) (rest : list (list ascii)) :
  clean (s :: rest) ->
  slugify_chars (slashesToSpaces (pathOf (s :: rest))) = joinWith dash (s :: rest).
Proof.
  intros H. unfold slugify_chars, joinWith.
  destruct (H s (or_introl eq_refl)) as [Hne Hs].
  rewrite slashesToSpaces_path by exact H.
  rewrite toLowerCase_id.
  - rewrite trim_joined by exact H.
    rewrite replaceSpaces_app
      by (intros c Hc; now apply slug_char_not_space, name_char_slug, Hs).
    destruct s as [|a s]; [congruence|].
    rewrite replaceSpaces_joined by (eapply clean_tail, H).
    rewrite removeNonWord_id.
    + rewrite replaceDashes_app by (intros c Hc; now apply name_char_not_dash, Hs).
      f_equal. apply replaceDashes_joined. eapply clean_tail, H.
    + intros c Hc. apply slug_char_kept. apply in_app_iff in Hc.
      destruct Hc as [Hc | Hc]; [now apply name_char_slug, Hs|].
      apply separated_In in Hc. destruct Hc as [-> | (x & Hx & Hc)]; [reflexivity|].
      apply name_char_slug. eapply (H x); [now right | exact Hc].
  - intros c Hc. apply separated_In in Hc.
    destruct Hc as [-> | (x & Hx & Hc)]; [reflexivity|].
    apply slug_char_not_upper, name_char_slug. eapply (H x); eassumption.
Qed.

End PathFacts.

(** ** Titles and names *)

Section TitleFacts.

Context {T : TitlePlatform}.

Lemma trimStart_split (l : list ascii) : exists sp, l = sp ++ Slug.trimStart l.
Proof.
  induction l as [|a l [sp IH]]; simpl; [now exists []|].
  destruct (Slug.isSpace a); [|now exists []].
  exists (a :: sp). simpl. now rewrite <- IH.
Qed.

(** What [trim] gives has no space at either end, so [trim] leaves it. *)
Lemma trim_chars_trim (l : list ascii) : Slug.trim (Slug.trim l) = Slug.trim l.
Proof.
  unfold Slug.trim.
  set (A := Slug.trimStart l). set (B := Slug.trimStart (rev A)).
  assert (Hfront : Slug.trimStart (rev B) = rev B).
  { apply SlugFacts.trimStart_id. intros c r Hr.
    destruct (trimStart_split (rev A)) as [sp Hsp]. fold B in Hsp.
    apply (f_equal (@rev ascii)) in Hsp.
    rewrite rev_involutive, rev_app_distr, Hr in Hsp.
    eapply SlugFacts.trimStart_head. unfold A in Hsp. exact Hsp. }
  rewrite Hfront, rev_involutive. f_equal.
  apply SlugFacts.trimStart_id. intros c r Hr.
  eapply SlugFacts.trimStart_head. unfold B in Hr. exact Hr.
Qed.

Lemma trim_trim (text : string) : trim (trim text) = trim text.
Proof.
  unfold trim. now rewrite list_ascii_of_string_of_list_ascii, trim_chars_trim.
Qed.

Lemma getPageTitle_cases (k : nat) (url : string) :
  getPageTitle k url = "Error"%string \/ getPageTitle k url = "No Title"%string \/
  exists text, getPageTitle k url = trim text /\ trim text <> ""%string.
Proof.
  unfold getPageTitle.
  destruct (title_get k url) as [data|]; [|now left].
  destruct (title_text data) as [text|]; [|now left].
  destruct (String.eqb_spec (trim text) ""); [now right; left|].
  right; right. now exists text.
Qed.

Lemma home_page_slug (c : ascii) :
  In c (list_ascii_of_string "home-page") -> Slug.isSlugChar c = true.
Proof.
  simpl. intros H. repeat (destruct H as [<- | H]; [reflexivity|]). destruct H.
Qed.

Lemma home_page_dashes (l1 l2 : list ascii) (d1 d2 : ascii) :
  list_ascii_of_string "home-page" = l1 ++ d1 :: d2 :: l2 ->
  Slug.isDash d1 = true -> Slug.isDash d2 = false.
Proof.
  simpl. intros H.
  repeat (destruct l1 as [|? l1];
          [injection H as <- <- _; vm_compute; congruence
          | injection H as _ H]).
  destruct l1 as [|? [|? ?]]; discriminate H.
Qed.

(** Every name is made of slug characters and has no dash after a dash. *)
Lemma nameOf_slug (k : nat) (url name : string) :
  nameOf k url = Some name ->
  (forall c, In c (list_ascii_of_string name) -> Slug.isSlugChar c = true) /\
  (forall l1 d1 d2 l2, list_ascii_of_string name = l1 ++ d1 :: d2 :: l2 ->
                       Slug.isDash d1 = true -> Slug.isDash d2 = false).
Proof.
  assert (Hslug : forall l,
    (forall c, In c (list_ascii_of_string (string_of_list_ascii (Slug.slugify_chars l))) ->
               Slug.isSlugChar c = true) /\
    (forall l1 d1 d2 l2,
       list_ascii_of_string (string_of_list_ascii (Slug.slugify_chars l))
         = l1 ++ d1 :: d2 :: l2 ->
       Slug.isDash d1 = true -> Slug.isDash d2 = false)).
  { intros l. rewrite list_ascii_of_string_of_list_ascii. split.
    - apply SlugFacts.slugify_chars_slug.
    - unfold Slug.slugify_chars. apply (SlugFacts.replaceDashes_shape _ false). }
  unfold nameOf, nameFromPath, slugify.
  destruct (_ || _).
  - destruct (URL_pathname url) as [pathname|]; [|discriminate].
    intros H. injection H as <-.
    destruct (String.eqb pathname "/"); [|apply Hslug].
    split; [apply home_page_slug | intros l1 d1 d2 l2; apply home_page_dashes].
  - intros H. injection H as <-. apply Hslug.
Qed.

Lemma nameOf_fails (k : nat) (url : string) :
  nameOf k url = None -> URL_pathname url = None.
Proof.
  unfold nameOf. destruct (_ || _); [|discriminate].
  now destruct (URL_pathname url).
Qed.

(** The loop adds one entry for each URL, in order. *)
Lemma titlesLoop_entries (urls : list string) (baseUrl : string) :
  forall k results entries,
  titlesLoop k urls baseUrl results = Some entries ->
  exists new,
    entries = results ++ new /\
    map entry_url new = urls /\
    (forall e, In e new ->
       entry_waitForTimeout e
       = if String.eqb (entry_url e) baseUrl then Some 1000 else None) /\
    (forall e, In e new -> exists j, nameOf j (entry_url e) = Some (entry_name e)).
Proof.
  induction urls as [|u urls IH]; intros k results entries H; simpl in H.
  - injection H as <-. exists []. rewrite app_nil_r. repeat split; intros e [].
  - destruct (nameOf k u) as [name|] eqn:En; [|discriminate].
    destruct (IH _ _ _ H) as (new & -> & Hurls & Hwait & Hname).
    eexists (_ :: new). rewrite <- app_assoc. split; [reflexivity|].
    cbn [map entry_url]. rewrite Hurls. repeat split.
    + intros e [<- | He]; [reflexivity | now apply Hwait].
    + intros e [<- | He]; [exists k; exact En | now apply Hname].
Qed.

Lemma titlesLoop_returns (urls : list string) (baseUrl : string) :
  (forall u, In u urls -> URL_pathname u <> None) ->
  forall k results, exists entries, titlesLoop k urls baseUrl results = Some entries.
Proof.
  induction urls as [|u urls IH]; intros H k results; simpl; [eauto|].
  destruct (nameOf k u) as [name|] eqn:En.
  - apply IH. intros x Hx. apply H. now right.
  - apply nameOf_fails in En. destruct (H u); [now left | exact En].
Qed.

Lemma titlesLoop_fails (urls : list string) (baseUrl : string) :
  forall k results,
  titlesLoop k urls baseUrl results = None ->
  exists j u, nth_error urls j = Some u /\ nameOf (k + j) u = None.
Proof.
  induction urls as [|u urls IH]; intros k results H; simpl in H; [discriminate|].
  destruct (nameOf k u) as [name|] eqn:En.
  - destruct (IH _ _ H) as (j & x & Hj & Hx).
    exists (S j), x. split; [exact Hj|]. now rewrite Nat.add_succ_r.
  - exists 0%nat, u. split; [reflexivity|]. now rewrite Nat.add_0_r.
Qed.

End TitleFacts.

(** * Waiting for the results file *)

Section PollingFacts.

Context {F : ResultsFile}.

Lemma checkFile_outcome (fuel : nat) (maxAttempts : Z) : forall attempts n call,
  checkFile fuel maxAttempts attempts = Some (n, call) ->
  (attempts < n)%nat /\
  Z.of_nat n <= Z.max (Z.of_nat attempts + 1) maxAttempts /\
  (forall k, (attempts < k < n)%nat -> existsSync k = false) /\
  ((existsSync n = true /\
    call = match readFile n with
           | inl err => ReadFailed err
           | inr data => ResultsRead data
           end) \/
   (existsSync n = false /\ call = TimedOut /\
    Z.of_nat n = Z.max (Z.of_nat attempts + 1) maxAttempts)).
Proof.
  induction fuel as [|fuel IH]; intros attempts n call H; [discriminate|].
  cbn [checkFile] in H.
  destruct (existsSync (S attempts)) eqn:Ee.
  - injection H as <- <-. repeat split; [lia | lia | intros k Hk; lia | now left].
  - destruct (Z.ltb_spec (Z.of_nat (S attempts)) maxAttempts) as [Hlt | Hge].
    + destruct (IH _ _ _ H) as (Hn & Hmax & Hearlier & Hcall).
      repeat split; [lia | lia | |].
      * intros k Hk. destruct (Nat.eq_dec k (S attempts)) as [-> | Hne];
          [exact Ee | apply Hearlier; lia].
      * destruct Hcall as [Hfound | (He & Hc & Hlast)]; [now left | right].
        repeat split; trivial. lia.
    + injection H as <- <-. repeat split; [lia | lia | intros k Hk; lia |].
      right. repeat split; trivial. lia.
Qed.

Lemma checkFile_terminates (fuel : nat) (maxAttempts : Z) : forall attempts,
  Z.max 1 (maxAttempts - Z.of_nat attempts) <= Z.of_nat fuel ->
  exists n call, checkFile fuel maxAttempts attempts = Some (n, call).
Proof.
  induction fuel as [|fuel IH]; intros attempts Hfuel; [lia|].
  cbn [checkFile].
  destruct (existsSync (S attempts)); [eauto|].
  destruct (Z.ltb_spec (Z.of_nat (S attempts)) maxAttempts); [|eauto].
  apply IH. lia.
Qed.

End PollingFacts.

(** * More on the crawl *)

Section CrawlFacts.

Context {P : Platform}.

Lemma add_all_grows (ls : list string) : forall v, exists extra, JsSet.add_all v ls = v ++ extra.
Proof.
  unfold JsSet.add_all. induction ls as [|l ls IH]; intros v; simpl.
  - exists []. now rewrite app_nil_r.
  - destruct (IH (JsSet.add v l)) as [extra ->]. unfold JsSet.add.
    destruct (JsSet.has v l); [now exists extra|].
    exists ([l] ++ extra). now rewrite app_assoc.
Qed.

Lemma order_grows (startUrl : string) (order : list (nat * string)) : forall acc,
  exists extra, fst (fold_left (settle_one startUrl) order acc) = fst acc ++ extra.
Proof.
  induction order as [|p order IH]; intros acc; simpl.
  - exists []. now rewrite app_nil_r.
  - destruct (IH (settle_one startUrl acc p)) as [extra ->].
    rewrite settle_one_fst, crawl_url_spec. cbn [fst].
    destruct (add_all_grows (fresh (fst acc) (candidates startUrl (fst p) (snd p)))
                (fst acc)) as [more ->].
    exists (more ++ extra). now rewrite app_assoc.
Qed.

(** A chunk adds to [visited] at its end only. *)
Lemma run_chunk_grows (startUrl : string) (chunk : list string) (st : level_state) :
  exists extra, visited (run_chunk startUrl chunk st) = visited st ++ extra.
Proof.
  destruct (run_chunk_order startUrl chunk st) as (order & _ & -> & _).
  apply (order_grows startUrl order (visited st, [])).
Qed.

Lemma nth_error_app_iff {A : Type} (l1 l2 : list A) (k : nat) (x : A) :
  nth_error (l1 ++ l2) k = Some x <->
  nth_error l1 k = Some x \/
  exists j, k = (length l1 + j)%nat /\ nth_error l2 j = Some x.
Proof.
  destruct (Nat.lt_ge_cases k (length l1)) as [Hlt | Hge].
  - rewrite nth_error_app1 by exact Hlt. split; [now left|].
    intros [H | (j & -> & _)]; [exact H | lia].
  - rewrite nth_error_app2 by exact Hge. split.
    + intros H. right. exists (k - length l1)%nat. split; [lia | exact H].
    + intros [H | (j & -> & H)].
      * assert (Hk : nth_error l1 k <> None) by congruence.
        apply nth_error_Some in Hk. lia.
      * now replace (length l1 + j - length l1)%nat with j by lia.
Qed.

End CrawlFacts.

Section CrawlAccounts.

Context {P : Platform}.
Variables (startUrl : string) (concurrencyLimit maxPages : Z).

Lemma run_chunk_accounted (before chunk : list string) (st : level_state) :
  accounted startUrl (before ++ fetched st) (req st) (visited st) ->
  accounted startUrl (before ++ fetched (run_chunk startUrl chunk st))
            (req (run_chunk startUrl chunk st))
            (visited (run_chunk startUrl chunk st)).
Proof.
  intros [Hreq Hseen]. rewrite run_chunk_fetched, run_chunk_req, app_assoc. split.
  - rewrite length_app. congruence.
  - intros x. rewrite run_chunk_In, Hseen. split.
    + intros [[-> | (k & u & Hk & Hx)] | (j & u & Hj & Hx)]; [now left | right..].
      * exists k, u. split; [|exact Hx]. apply nth_error_app_iff. now left.
      * exists (req st + j)%nat, u. split; [|exact Hx].
        apply nth_error_app_iff. right. exists j. split; [congruence | exact Hj].
    + intros [-> | (k & u & Hk & Hx)]; [now left; left|].
      apply nth_error_app_iff in Hk. destruct Hk as [Hk | (j & -> & Hj)].
      * left. right. eauto.
      * right. exists j, u. split; [exact Hj|]. now rewrite Hreq.
Qed.

Lemma level_loop_accounted (before : list string) (fuel : nat) : forall cl i st st',
  accounted startUrl (before ++ fetched st) (req st) (visited st) ->
  level_loop startUrl concurrencyLimit maxPages fuel cl i st = Some st' ->
  accounted startUrl (before ++ fetched st') (req st') (visited st').
Proof.
  induction fuel as [|fuel IH]; intros cl i st st' Hinv H; [discriminate|].
  simpl in H. unfold level_step in H.
  destruct (i <? Z.of_nat (length cl)).
  - pose proof (run_chunk_accounted before (slice cl i (i + concurrencyLimit)) st Hinv)
      as Hinv'.
    destruct (JsSet.size _ >=? maxPages).
    + now injection H as <-.
    + eapply IH; eassumption.
  - now injection H as <-.
Qed.

Lemma depth_loop_accounted (levels : nat) : forall fuel cl seen issued log r,
  accounted startUrl (concat log) issued seen ->
  depth_loop startUrl concurrencyLimit maxPages fuel levels cl seen issued log = Some r ->
  accounted startUrl (concat (requests r)) (length (concat (requests r))) (result r).
Proof.
  induction levels as [|levels IH]; intros fuel cl seen issued log r Hinv H; simpl in H.
  - injection H as <-. cbn [requests result]. destruct Hinv as [-> Hseen].
    now split.
  - destruct (level_loop _ _ _ fuel cl 0 _) as [st|] eqn:El; [|discriminate].
    apply (level_loop_accounted (concat log)) in El;
      [| cbn [fetched visited req]; now rewrite app_nil_r].
    assert (Hlog : concat (log ++ [fetched st]) = concat log ++ fetched st)
      by (rewrite concat_app; cbn; now rewrite app_nil_r).
    destruct (_ || _).
    + injection H as <-. cbn [requests result]. rewrite Hlog.
      destruct El as [Hreq Hseen]. split; [reflexivity | exact Hseen].
    + eapply IH; [|exact H]. now rewrite Hlog.
Qed.

(** All that is requested is in [visited] already. *)
Lemma depth_loop_requests_visited (levels : nat) : forall fuel cl seen issued log r,
  incl cl seen -> incl (concat log) seen ->
  depth_loop startUrl concurrencyLimit maxPages fuel levels cl seen issued log = Some r ->
  incl (concat (requests r)) (result r).
Proof.
  induction levels as [|levels IH]; intros fuel cl seen issued log r Hcl Hlog H;
    simpl in H.
  - now injection H as <-.
  - destruct (level_loop _ _ _ fuel cl 0 _) as [st|] eqn:El; [|discriminate].
    assert (Hf : forall x, In x (fetched st) -> In x cl).
    { eapply level_loop_fetched_In; [|exact El]. intros x []. }
    apply (level_loop_nextLevel _ _ _ seen) in El;
      [| apply incl_refl | intros x []].
    destruct El as [Hincl Hnext].
    assert (Hlog' : incl (concat (log ++ [fetched st])) (visited st)).
    { rewrite concat_app. cbn. rewrite app_nil_r. apply incl_app.
      - eapply incl_tran; eassumption.
      - intros x Hx. apply Hincl, Hcl, Hf, Hx. }
    destruct (_ || _); [now injection H as <-|].
    eapply IH; [| exact Hlog' | exact H].
    intros x Hx. now destruct (Hnext x Hx).
Qed.

End CrawlAccounts.

Section OneAtATime.

Context {P : Platform}.
Variables (order1 order2 : nat -> nat) (startUrl : string) (maxPages : Z).

(** A chunk of one URL at most has one completion order. *)
Lemma run_chunk_short (chunk : list string) (st : level_state) :
  (length chunk <= 1)%nat ->
  @run_chunk (with_order P order1) startUrl chunk st =
  @run_chunk (with_order P order2) startUrl chunk st.
Proof.
  destruct chunk as [|u [|? ?]]; simpl; intros H; [| |lia].
  - now rewrite !run_chunk_nil.
  - now rewrite !run_chunk_single.
Qed.

Lemma level_loop_one (fuel : nat) : forall cl i st,
  0 <= i ->
  @level_loop (with_order P order1) startUrl 1 maxPages fuel cl i st =
  @level_loop (with_order P order2) startUrl 1 maxPages fuel cl i st.
Proof.
  induction fuel as [|fuel IH]; intros cl i st Hi; [reflexivity|].
  cbn [level_loop]. unfold level_step.
  rewrite (run_chunk_short (slice cl i (i + 1)) st)
    by (pose proof (slice_length cl i 1 Hi ltac:(lia)); lia).
  destruct (i <? Z.of_nat (length cl)); [|reflexivity].
  destruct (JsSet.size _ >=? maxPages); [reflexivity|]. apply IH. lia.
Qed.

Lemma depth_loop_one (levels : nat) : forall fuel cl seen issued log,
  @depth_loop (with_order P order1) startUrl 1 maxPages fuel levels cl seen issued log =
  @depth_loop (with_order P order2) startUrl 1 maxPages fuel levels cl seen issued log.
Proof.
  induction levels as [|levels IH]; intros fuel cl seen issued log; [reflexivity|].
  cbn [depth_loop]. rewrite level_loop_one by lia.
  destruct (level_loop _ _ _ fuel cl 0 _) as [st|]; [|reflexivity].
  destruct (_ || _); [reflexivity | apply IH].
Qed.

End OneAtATime.


(** * Further properties of the code *)

Section SlugProperties.

Import Slug SlugFacts.

Lemma dash_only (c : ascii) : isDash c = true -> c = dash.
Proof. each_char c. Qed.

Lemma string_length_chars (s : string) :
  String.length s = length (list_ascii_of_string s).
Proof.
  induction s as [|c s IH]; simpl; congruence.
Qed.

(** X1.  Whatever the text, [slugify] gives a string made of the letters
    a-z, the digits, the underscore and the dash: nothing else survives
    lines 27-31. *)
Theorem slugify_alphabet (text : string) (c : ascii) :
  In c (list_ascii_of_string (slugify text)) -> isSlugChar c = true.
Proof.
  unfold slugify. rewrite list_ascii_of_string_of_list_ascii.
  apply slugify_chars_slug.
Qed.

(** X2.  A slug never has two dashes in a row (line 31), whatever runs of
    spaces, dashes and removed characters the text had: the character after
    a dash is not a dash. *)
Theorem slugify_single_dashes (text : string) (l1 l2 : list ascii) (d1 d2 : ascii) :
  list_ascii_of_string (slugify text) = l1 ++ d1 :: d2 :: l2 ->
  isDash d1 = true -> isDash d2 = false.
Proof.
  unfold slugify, slugify_chars. rewrite list_ascii_of_string_of_list_ascii.
  apply (proj2 (replaceDashes_shape _ false)).
Qed.

(** X3.  A text that is in slug form already (slug characters only, no
    two dashes in a row) is returned as it is. *)
Theorem slugify_keeps_slugs (text : string) :
  (forall c, In c (list_ascii_of_string text) -> isSlugChar c = true) ->
  (forall l1 l2, list_ascii_of_string text <> l1 ++ dash :: dash :: l2) ->
  slugify text = text.
Proof.
  intros Hslug Hpairs. unfold slugify.
  rewrite slugify_chars_id; [apply string_of_list_ascii_of_string | exact Hslug |].
  intros l1 d1 d2 l2 H Hd1. destruct (isDash d2) eqn:Hd2; [|reflexivity].
  apply dash_only in Hd1, Hd2. subst. destruct (Hpairs _ _ H).
Qed.

(** X4.  [slugify] is idempotent. *)
Theorem slugify_idempotent (text : string) :
  slugify (slugify text) = slugify text.
Proof.
  unfold slugify. rewrite list_ascii_of_string_of_list_ascii. f_equal.
  apply slugify_chars_id.
  - apply slugify_chars_slug.
  - unfold slugify_chars. apply (proj2 (replaceDashes_shape _ false)).
Qed.

(** X5.  A slug is never longer than the text it is made from. *)
Theorem slugify_not_longer (text : string) :
  (String.length (slugify text) <= String.length text)%nat.
Proof.
  unfold slugify.
  rewrite !string_length_chars, list_ascii_of_string_of_list_ascii.
  apply slugify_chars_length.
Qed.

End SlugProperties.

Section TitleProperties.

Context {T : TitlePlatform}.

(** X6.  The name taken from a path (line 114) whose segments are not
    empty and made of a-z, 0-9 and the underscore is the segments joined by
    dashes: [/about/team] gives [about-team]. *)
Theorem path_gives_joined_name (s : list ascii) (rest : list (list ascii)) :
  Slug.clean (s :: rest) ->
  nameFromPath (string_of_list_ascii (Slug.pathOf (s :: rest))) =
  string_of_list_ascii (Slug.joinWith Slug.dash (s :: rest)).
Proof.
  intros H. unfold nameFromPath.
  rewrite list_ascii_of_string_of_list_ascii, PathFacts.slugify_chars_path by exact H.
  destruct (H s (or_introl eq_refl)) as [Hne _].
  destruct s as [|a s]; [congruence|].
  cbn [Slug.pathOf map concat app string_of_list_ascii].
  assert (Hroot : String.eqb
            (String Slug.slash (String a (string_of_list_ascii
               (s ++ concat (map (cons Slug.slash) rest))))) "/" = false).
  { cbn [String.eqb]. now destruct (Ascii.eqb Slug.slash "/"). }
  now rewrite Hroot.
Qed.


(** X8.  When [saveUrlsWithTitles] gets to line 122, the array has one
    entry for each URL, in the order of the list and with the URL as it
    was given; an entry has [waitForTimeout: 1000] when its URL is the base
    URL, and no such field otherwise. *)
Theorem entries_follow_urls (urls : list string) (baseUrl : string)
    (entries : list url_entry) :
  saveUrlsWithTitles urls baseUrl = Some entries ->
  map entry_url entries = urls /\
  forall e, In e entries ->
    entry_waitForTimeout e
    = if String.eqb (entry_url e) baseUrl then Some 1000 else None.
Proof.
  unfold saveUrlsWithTitles. intros H.
  destruct (titlesLoop_entries urls baseUrl 0 [] entries H)
    as (new & -> & Hurls & Hwait & _). auto.
Qed.

(** X9.  Every name written to [urls.json] is made of slug characters and
    has no two dashes in a row, whether it comes from the title or from
    the path. *)
Theorem names_are_slugs (urls : list string) (baseUrl : string)
    (entries : list url_entry) (e : url_entry) :
  saveUrlsWithTitles urls baseUrl = Some entries -> In e entries ->
  (forall c, In c (list_ascii_of_string (entry_name e)) -> Slug.isSlugChar c = true) /\
  (forall l1 l2,
     list_ascii_of_string (entry_name e) <> l1 ++ Slug.dash :: Slug.dash :: l2).
Proof.
  unfold saveUrlsWithTitles. intros H He.
  destruct (titlesLoop_entries urls baseUrl 0 [] entries H)
    as (new & -> & _ & _ & Hname).
  destruct (Hname e He) as (j & Hj). apply nameOf_slug in Hj.
  destruct Hj as [Hslug Hpairs]. split; [exact Hslug|].
  intros l1 l2 Heq. apply Hpairs in Heq; [discriminate Heq | reflexivity].
Qed.

(** X10.  A page that does not load, whose HTML cannot be read or whose
    title is blank is named after its path: the placeholders ['Error']
    and ['No Title'] never become names through line 111. *)
Theorem unusable_title_named_by_path (k : nat) (url : string) :
  (title_get k url = None \/
   exists data, title_get k url = Some data /\
     (title_text data = None \/
      exists text, title_text data = Some text /\ trim text = ""%string)) ->
  nameOf k url = match URL_pathname url with
                 | Some pathname => Some (nameFromPath pathname)
                 | None => None
                 end.
Proof.
  intros H. unfold nameOf.
  assert (Ht : getPageTitle k url = "Error"%string \/
               getPageTitle k url = "No Title"%string).
  { unfold getPageTitle.
    destruct H as [-> | (data & -> & [-> | (text & -> & ->)])]; auto. }
  destruct Ht as [-> | ->]; reflexivity.
Qed.

(** X11.  The loop of [saveUrlsWithTitles] reaches the write of line 122
    when every URL of the list parses; when it does not reach it, some URL
    of the list does not parse (the exception of line 113).  What the
    write itself does is not part of the statement. *)
Theorem saving_fails_only_on_unparsable_url (urls : list string) (baseUrl : string) :
  ((forall u, In u urls -> URL_pathname u <> None) ->
   exists entries, saveUrlsWithTitles urls baseUrl = Some entries) /\
  (saveUrlsWithTitles urls baseUrl = None ->
   exists u, In u urls /\ URL_pathname u = None).
Proof.
  split.
  - intros H. exact (titlesLoop_returns urls baseUrl H 0%nat []).
  - unfold saveUrlsWithTitles. intros H.
    destruct (titlesLoop_fails urls baseUrl 0 [] H) as (j & u & Hj & Hu).
    exists u. split; [eapply nth_error_In, Hj | eapply nameOf_fails, Hu].
Qed.

End TitleProperties.

Section PollingProperties.

Context {F : ResultsFile}.

(** X12.  The polling ends: the callback is called after at least one
    check and at most [max 1 maxAttempts] checks, so also when
    [maxAttempts] is zero or negative. *)
Theorem polling_ends (fuel : nat) (maxAttempts : Z) :
  Z.max 1 maxAttempts <= Z.of_nat fuel ->
  exists n call,
    waitForResultsFile fuel maxAttempts = Some (n, call) /\
    (1 <= n)%nat /\ Z.of_nat n <= Z.max 1 maxAttempts.
Proof.
  intros Hfuel. unfold waitForResultsFile.
  destruct (checkFile_terminates fuel maxAttempts 0) as (n & call & H);
    [simpl; lia|].
  exists n, call. split; [exact H|].
  apply checkFile_outcome in H. simpl in H. lia.
Qed.

(** X13.  When the callback gets an answer other than the timeout, the
    file was read at the first check at which it existed. *)
Theorem polling_reads_first_file (fuel : nat) (maxAttempts : Z) (n : nat)
    (call : callback_call) :
  waitForResultsFile fuel maxAttempts = Some (n, call) -> call <> TimedOut ->
  existsSync n = true /\
  (forall k, (1 <= k < n)%nat -> existsSync k = false) /\
  call = match readFile n with
         | inl err => ReadFailed err
         | inr data => ResultsRead data
         end.
Proof.
  intros H Hcall. apply checkFile_outcome in H.
  destruct H as (_ & _ & Hearlier & [[He Hc] | (_ & Hc & _)]); [|contradiction].
  split; [exact He|]. split; [|exact Hc].
  intros k Hk. apply Hearlier. lia.
Qed.

(** X14.  The timeout is reported exactly when the file exists at none
    of the [max 1 maxAttempts] checks. *)
Theorem polling_times_out_iff (fuel : nat) (maxAttempts : Z) (n : nat)
    (call : callback_call) :
  waitForResultsFile fuel maxAttempts = Some (n, call) ->
  (call = TimedOut <->
   forall k, (1 <= k)%nat -> Z.of_nat k <= Z.max 1 maxAttempts ->
             existsSync k = false).
Proof.
  intros H. apply checkFile_outcome in H. simpl in H.
  destruct H as (Hn & Hmax & Hearlier & Hcall). split.
  - intros ->. destruct Hcall as [[_ Hc] | (He & _ & Hlast)]; [destruct (readFile n); discriminate|].
    intros k Hk Hle. destruct (Nat.eq_dec k n) as [-> | Hne]; [exact He|].
    apply Hearlier. lia.
  - intros Hnone. destruct Hcall as [[He _] | (_ & Hc & _)]; [|exact Hc].
    rewrite Hnone in He; [discriminate | lia | lia].
Qed.

End PollingProperties.

Section CrawlProperties.

Context {P : Platform}.

(** X15.  The returned set is the seed and the same-host links of the
    pages that were requested, no more and no less: a URL is in it exactly
    when it is the seed or a candidate of the page that answered one of
    the requests. *)
Theorem result_is_seed_and_links (fuel : nat) (startUrl : string)
    (maxDepth concurrencyLimit maxPages : Z) (r : crawl_result) (x : string) :
  crawlWebsite fuel startUrl maxDepth concurrencyLimit maxPages = Some r ->
  (In x (result r) <->
   x = startUrl \/
   exists k u, nth_error (concat (requests r)) k = Some u /\
               In x (candidates startUrl k u)).
Proof.
  intros H. apply depth_loop_accounted in H; [apply H|].
  split; [reflexivity|]. intros y. cbn. split.
  - intros [<- | []]. now left.
  - intros [-> | (k & u & Hk & _)]; [now left | now destruct k].
Qed.

(** X16.  Every URL that was requested is in the returned set. *)
Theorem requested_urls_are_returned (fuel : nat) (startUrl : string)
    (maxDepth concurrencyLimit maxPages : Z) (r : crawl_result) :
  crawlWebsite fuel startUrl maxDepth concurrencyLimit maxPages = Some r ->
  incl (concat (requests r)) (result r).
Proof.
  intros H. eapply depth_loop_requests_visited; [| |exact H].
  - apply incl_refl.
  - intros x [].
Qed.

(** X17.  The seed is the first element of the returned set, which is the
    order the route handler lists it in, and it is there once. *)
Theorem seed_comes_first (fuel : nat) (startUrl : string)
    (maxDepth concurrencyLimit maxPages : Z) (r : crawl_result) :
  crawlWebsite fuel startUrl maxDepth concurrencyLimit maxPages = Some r ->
  exists rest, result r = startUrl :: rest /\ ~ In startUrl rest.
Proof.
  intros H.
  assert (Hfirst : exists rest, result r = startUrl :: rest).
  { eapply (crawl_visited (fun v => exists rest, v = startUrl :: rest));
      [| |exact H].
    - intros chunk st [rest Hv].
      destruct (run_chunk_grows startUrl chunk st) as [extra ->].
      rewrite Hv. now exists (rest ++ extra).
    - now exists []. }
  destruct Hfirst as [rest Hr]. exists rest. split; [exact Hr|].
  apply (crawl_visited (@NoDup string)) in H.
  - rewrite Hr in H. now apply NoDup_cons_iff in H.
  - intros chunk st. apply run_chunk_NoDup.
  - repeat constructor. intros [].
Qed.

(** X18.  When the crawl ends below the page budget and before the depth
    limit, it has requested every URL it returns: nothing discovered is
    left unvisited. *)
Theorem exhaustive_when_no_limit_hit (fuel : nat) (startUrl : string)
    (maxDepth concurrencyLimit maxPages : Z) (r : crawl_result) :
  1 <= concurrencyLimit ->
  crawlWebsite fuel startUrl maxDepth concurrencyLimit maxPages = Some r ->
  JsSet.size (result r) < maxPages ->
  Z.of_nat (length (requests r)) < maxDepth ->
  incl (result r) (concat (requests r)).
Proof.
  intros Hc H Hsize Hdepth.
  eapply (depth_loop_exhaustive startUrl concurrencyLimit maxPages
            (Z.to_nat maxDepth)); [exact Hc | | | exact H | exact Hsize | lia].
  - reflexivity.
  - intros x [<- | []]. right. now left.
Qed.

(** X19.  With [concurrencyLimit = 1] the crawl does not depend on the
    order in which responses arrive: what it returns and what it requests
    are the same for any two completion orders. *)
Theorem one_at_a_time_is_order_free (order1 order2 : nat -> nat) (fuel : nat)
    (startUrl : string) (maxDepth maxPages : Z) :
  @crawlWebsite (with_order P order1) fuel startUrl maxDepth 1 maxPages =
  @crawlWebsite (with_order P order2) fuel startUrl maxDepth 1 maxPages.
Proof.
  unfold crawlWebsite. apply depth_loop_one.
Qed.

(** X20.  One turn of the loop of line 65 issues at most
    [concurrencyLimit] requests: for the [concurrencyLimit] entries of the
    current level that start at its index (fewer at the end of the array),
    in their order; the next turn starts [concurrencyLimit] entries
    further. *)
Theorem chunk_within_limit (startUrl : string) (concurrencyLimit maxPages : Z)
    (currentLevel : list string) (i : Z) (st st' : level_state) :
  1 <= concurrencyLimit -> 0 <= i ->
  (level_step startUrl concurrencyLimit maxPages currentLevel i st = inr st' \/
   exists i', level_step startUrl concurrencyLimit maxPages currentLevel i st
              = inl (i', st')) ->
  Z.of_nat (length (firstn (Z.to_nat concurrencyLimit)
                      (skipn (Z.to_nat i) currentLevel))) <= concurrencyLimit /\
  fetched st' = fetched st
                ++ firstn (Z.to_nat concurrencyLimit) (skipn (Z.to_nat i) currentLevel) /\
  req st' = (req st
             + length (firstn (Z.to_nat concurrencyLimit)
                         (skipn (Z.to_nat i) currentLevel)))%nat /\
  (forall i', level_step startUrl concurrencyLimit maxPages currentLevel i st
              = inl (i', st') -> i' = i + concurrencyLimit).
Proof.
  intros Hc Hi H. unfold level_step in *.
  split; [rewrite length_firstn; lia|].
  destruct (Z.ltb_spec i (Z.of_nat (length currentLevel))).
  - rewrite slice_window in * by lia.
    destruct (JsSet.size _ >=? maxPages).
    + destruct H as [H | [i' H]]; [|discriminate H]. injection H as <-.
      rewrite run_chunk_fetched, run_chunk_req.
      repeat split. intros i' H. discriminate H.
    + destruct H as [H | [i' H]]; [discriminate H|]. injection H as <- <-.
      rewrite run_chunk_fetched, run_chunk_req.
      repeat split. intros i' H. now injection H as <-.
  - destruct H as [H | [i' H]]; [|discriminate H]. injection H as <-.
    rewrite skipn_all2 by lia. rewrite firstn_nil, app_nil_r, Nat.add_0_r.
    repeat split. intros i' H. discriminate H.
Qed.

End CrawlProperties.

(** * The rest of the code on the small web *)

Module MoreExamples.

Import Fixture TitleFixture.

Ltac one_of H := repeat (destruct H as [<- | H]; [reflexivity|]); destruct H.

Lemma slugify_alphabet_witness : Slug.isSlugChar "w"%char = true.
Proof.
  apply (slugify_alphabet "  Hello   World!  "%string "w"%char).
  vm_compute. do 6 right. left. reflexivity.
Defined.

Lemma slugify_single_dashes_witness : Slug.isDash "b"%char = false.
Proof.
  apply (slugify_single_dashes "a - b"%string ["a"%char] [] "-"%char "b"%char); reflexivity.
Defined.

Lemma slugify_keeps_slugs_witness : slugify "about-team_2"%string = "about-team_2"%string.
Proof.
  apply slugify_keeps_slugs.
  - intros c H. simpl in H. one_of H.
  - intros l1 l2 H. cbv in H.
    repeat (destruct l1 as [|? l1]; [discriminate H | injection H as _ H]).
    destruct l1 as [|? [|? ?]]; discriminate H.
Defined.

Lemma path_gives_joined_name_witness :
  nameFromPath "/about/team"%string = "about-team"%string.
Proof.
  apply (path_gives_joined_name (list_ascii_of_string "about"%string)
           [list_ascii_of_string "team"%string]).
  intros s [<- | [<- | []]]; (split; [discriminate | intros c H; simpl in H; one_of H]).
Defined.

Lemma entries_follow_urls_witness :
  map entry_url saved = [home; about; team] /\
  forall e, In e saved ->
    entry_waitForTimeout e = if String.eqb (entry_url e) home then Some 1000 else None.
Proof.
  apply (@entries_follow_urls (titled some_titles) [home; about; team] home saved).
  vm_compute. reflexivity.
Defined.

Lemma names_are_slugs_witness :
  (forall c, In c (list_ascii_of_string "welcome-to-acom"%string) -> Slug.isSlugChar c = true) /\
  (forall l1 l2,
     list_ascii_of_string "welcome-to-acom"%string <> l1 ++ Slug.dash :: Slug.dash :: l2).
Proof.
  apply (@names_are_slugs (titled some_titles) [home; about; team] home saved
           {| entry_name := "welcome-to-acom"%string; entry_url := home;
              entry_waitForTimeout := Some 1000 |}).
  - vm_compute. reflexivity.
  - now left.
Defined.

Lemma unusable_title_named_by_path_witness :
  @nameOf (titled some_titles) 2 team = Some "about-team"%string /\
  @nameOf (titled some_titles) 1 about = Some "about"%string.
Proof.
  split.
  - apply (@unusable_title_named_by_path (titled some_titles) 2 team).
    left. reflexivity.
  - apply (@unusable_title_named_by_path (titled some_titles) 1 about).
    right. exists ""%string. split; [reflexivity|].
    right. exists ""%string. split; reflexivity.
Defined.

Lemma saving_fails_only_on_unparsable_url_witness :
  (exists entries,
     @saveUrlsWithTitles (titled some_titles) [home; about] home = Some entries) /\
  (exists u, In u [home; unparsable] /\
             @URL_pathname (titled some_titles) u = None).
Proof.
  split.
  - apply (proj1 (@saving_fails_only_on_unparsable_url (titled some_titles)
                    [home; about] home)).
    intros u [<- | [<- | []]]; discriminate.
  - apply (proj2 (@saving_fails_only_on_unparsable_url (titled some_titles)
                    [home; unparsable] home)).
    vm_compute. reflexivity.
Defined.

Lemma polling_ends_witness :
  exists n call,
    @waitForResultsFile third_check 30 30 = Some (n, call) /\
    (1 <= n)%nat /\ Z.of_nat n <= Z.max 1 30.
Proof.
  apply (@polling_ends third_check 30 30). lia.
Defined.

Lemma polling_reads_first_file_witness :
  @existsSync third_check 3 = true /\
  (forall k, (1 <= k < 3)%nat -> @existsSync third_check k = false) /\
  ResultsRead "[]"%string = match @readFile third_check 3 with
                     | inl err => ReadFailed err
                     | inr data => ResultsRead data
                     end.
Proof.
  apply (@polling_reads_first_file third_check 10 30 3 (ResultsRead "[]"%string));
    [vm_compute; reflexivity | discriminate].
Defined.

Lemma polling_times_out_iff_witness :
  TimedOut = TimedOut <->
  forall k, (1 <= k)%nat -> Z.of_nat k <= Z.max 1 30 -> @existsSync never k = false.
Proof.
  apply (@polling_times_out_iff never 40 30 30 TimedOut). vm_compute. reflexivity.
Defined.

Lemma crawled_two_links :
  @crawlWebsite (web two_links in_order) 5 home 5 10 100 = Some crawled.
Proof. vm_compute. reflexivity. Qed.

Lemma result_is_seed_and_links_witness :
  In about (result crawled) <->
  about = home \/
  exists k u, nth_error (concat (requests crawled)) k = Some u /\
              In about (@candidates (web two_links in_order) home k u).
Proof.
  apply (@result_is_seed_and_links (web two_links in_order) 5 home 5 10 100).
  vm_compute. reflexivity.
Defined.

Lemma requested_urls_are_returned_witness :
  incl (concat (requests crawled)) (result crawled).
Proof.
  apply (@requested_urls_are_returned (web two_links in_order) 5 home 5 10 100).
  vm_compute. reflexivity.
Defined.

Lemma seed_comes_first_witness :
  exists rest, result crawled = home :: rest /\ ~ In home rest.
Proof.
  apply (@seed_comes_first (web two_links in_order) 5 home 5 10 100).
  vm_compute. reflexivity.
Defined.

Lemma exhaustive_when_no_limit_hit_witness :
  incl (result crawled) (concat (requests crawled)).
Proof.
  apply (@exhaustive_when_no_limit_hit (web two_links in_order) 5 home 5 10 100);
    [lia | vm_compute; reflexivity | vm_compute; reflexivity | simpl; lia].
Defined.

Lemma chunk_within_limit_witness :
  Z.of_nat (length (firstn (Z.to_nat 10) (skipn (Z.to_nat 0) [home]))) <= 10 /\
  [home] = [] ++ firstn (Z.to_nat 10) (skipn (Z.to_nat 0) [home]) /\
  1%nat = (0 + length (firstn (Z.to_nat 10) (skipn (Z.to_nat 0) [home])))%nat /\
  (forall i',
     @level_step (web two_links in_order) home 10 100 [home] 0
       {| visited := [home]; nextLevel := []; req := 0; fetched := [] |}
     = inl (i', {| visited := [home; about]; nextLevel := [about]; req := 1;
                   fetched := [home] |}) -> i' = 0 + 10).
Proof.
  apply (@chunk_within_limit (web two_links in_order) home 10 100 [home] 0
           {| visited := [home]; nextLevel := []; req := 0; fetched := [] |}
           {| visited := [home; about]; nextLevel := [about]; req := 1;
              fetched := [home] |}); [lia | lia |].
  right. exists 10. vm_compute. reflexivity.
Defined.

End MoreExamples.
